(** * ddalg: centered interval tree (ddalg/itree/_itree.py, ddalg/itree/_tree.py)

    A shallow embedding of the interval tree of the ddalg package and the
    properties of its construction, its queries and its iterators.

    Sources.  _itree.py defines [Interval], [get_center], [IntervalNode] and a
    first [IntervalTree]; _tree.py defines a second [IntervalTree] with the
    same [build], [insert], [search] and [get_overlaps], another
    [fuzzy_query], and the interval iterator [IntervalTreeIterator].  _tree.py
    imports its node class from a module that is not among the sources; the
    class [IntervalNode] of _itree.py stands for it.

    Modelling conventions.
    - Interval coordinates are integers ([Z]), as in the repository's tests;
      an interval also carries a [payload], standing for whatever the concrete
      subclass of [Interval] stores besides its bounds (two intervals with the
      same bounds are [==] in Python, yet they are different objects).
    - Query positions, query bounds, the coverage fraction and the margin are
      rationals ([Q]); they are only ever compared with the coordinates.
    - A Python exception is a value of [exn]; a call returns [Ok v] or
      [Raise e].  The recursion of [IntervalNode.__init__] is bounded by the
      interpreter's recursion limit, which is an explicit argument: when the
      limit is exhausted the call raises [RecursionError].
    - A node reference is [PyNone] or a node object; the [parent] attribute is
      not stored: a node met during iteration is addressed by its path from
      the root, and its parent is the path with the last step removed.
    - A loop over an iterator is run for a given number of calls of
      [__next__]; its outcome says whether it has finished, failed or is still
      running. *)

From Stdlib Require Import ZArith QArith Qround List Bool Lia Lqa Permutation Sorted.
Import ListNotations.

Set Implicit Arguments.

(** ** Exceptions and results *)

Inductive exn : Type :=
| ValueError
| AttributeError
| IndexError
| RecursionError
| StopIteration.

Inductive result (A : Type) : Type :=
| Ok (a : A)
| Raise (e : exn).

Arguments Ok {A} a.
Arguments Raise {A} e.

Definition bind {A B : Type} (r : result A) (k : A -> result B) : result B :=
  match r with
  | Ok a => k a
  | Raise e => Raise e
  end.

Notation "x <- r ;; k" := (bind r (fun x => k))
  (at level 61, r at next level, right associativity).

(** ** Rational comparisons *)

Definition Qleb (x y : Q) : bool := Qle_bool x y.
Definition Qltb (x y : Q) : bool := negb (Qle_bool y x).

(** ** class Interval *)

Record Interval : Type := mkInterval {
  begin : Z;
  end_ : Z;
  payload : nat
}.

(** A plain interval, as [SimpleInterval(b, e)] of the tests. *)
Definition SimpleInterval (b e : Z) : Interval := mkInterval b e 0.

Module IntervalOps.

(** [contains]: [self.end >= value > self.begin] *)
Definition contains (self : Interval) (value : Q) : bool :=
  Qleb value (inject_Z (end_ self)) && Qltb (inject_Z (begin self)) value.

(** [intersects]: [end > self.begin and begin < self.end] *)
Definition intersects (self : Interval) (b e : Q) : bool :=
  Qltb (inject_Z (begin self)) e && Qltb b (inject_Z (end_ self)).

(** [__lt__] *)
Definition lt (self other : Interval) : bool :=
  if negb (begin self =? begin other)%Z
  then (begin self <? begin other)%Z
  else (end_ self <? end_ other)%Z.

(** [__eq__] (and [__hash__]): the bounds only *)
Definition eq (self other : Interval) : bool :=
  (begin self =? begin other)%Z && (end_ self =? end_ other)%Z.

End IntervalOps.

(** ** get_center *)

(** [np.unique]: the sorted list of the distinct values. *)
Fixpoint insert_unique (x : Z) (l : list Z) : list Z :=
  match l with
  | [] => [x]
  | y :: l' =>
      if (x <? y)%Z then x :: l
      else if (x =? y)%Z then l
      else y :: insert_unique x l'
  end.

Definition np_unique (l : list Z) : list Z :=
  fold_right insert_unique [] l.

(** [np.median] of a sorted array: the middle value, or the mean of the two
    middle values. *)
Definition np_median (sorted : list Z) : Q :=
  let n := length sorted in
  if Nat.even n
  then (inject_Z (nth (n / 2 - 1) sorted 0%Z) + inject_Z (nth (n / 2) sorted 0%Z)) / 2
  else inject_Z (nth (n / 2) sorted 0%Z).

Definition positions (items : list Interval) : list Z :=
  flat_map (fun x => [begin x; end_ x]) items.

Definition get_center (items : list Interval) : Z :=
  Qfloor (np_median (np_unique (positions items))).

(** ** class IntervalNode *)

(** The [OrderedDict] / [defaultdict(list)] of a node: entries in key order of
    insertion, keys compared by [Interval.__eq__]. *)
Definition odict : Type := list (Interval * list Interval).

(** [inner[interval].append(interval)] on a [defaultdict(list)] *)
Fixpoint inner_append (inner : odict) (interval : Interval) : odict :=
  match inner with
  | [] => [(interval, [interval])]
  | (k, items) :: rest =>
      if IntervalOps.eq k interval
      then (k, items ++ [interval]) :: rest
      else (k, items) :: inner_append rest interval
  end.

(** [d[key]] *)
Fixpoint odict_get (d : odict) (key : Interval) : option (list Interval) :=
  match d with
  | [] => None
  | (k, items) :: rest =>
      if IntervalOps.eq k key then Some items else odict_get rest key
  end.

Definition keys (d : odict) : list Interval := map fst d.

(** [sorted(...)]: a stable sort that only uses [__lt__]. *)
Fixpoint insert_sorted (x : Interval) (l : list Interval) : list Interval :=
  match l with
  | [] => [x]
  | y :: l' =>
      if IntervalOps.lt x y then x :: l else y :: insert_sorted x l'
  end.

Definition sorted (l : list Interval) : list Interval :=
  fold_left (fun acc x => insert_sorted x acc) l [].

(** A node reference: [None], or a node object with its attributes
    [intervals], [_center] (absent on the node of an empty list), [left] and
    [right] (written [left_] and [right_]). *)
Inductive node_ref : Type :=
| PyNone
| Node (intervals : odict) (_center : option Z) (left_ right_ : node_ref).

(** The three buckets of the classification loop of [__init__]. *)
Record buckets : Type := mkBuckets {
  b_left : list Interval;
  b_right : list Interval;
  b_inner : odict
}.

Definition classify (center : Z) (bk : buckets) (interval : Interval) : buckets :=
  if (end_ interval <? center)%Z
  then mkBuckets (b_left bk ++ [interval]) (b_right bk) (b_inner bk)
  else if (begin interval >=? center)%Z
  then mkBuckets (b_left bk) (b_right bk ++ [interval]) (b_inner bk)
  else mkBuckets (b_left bk) (b_right bk) (inner_append (b_inner bk) interval).

Definition partition (center : Z) (intervals : list Interval) : buckets :=
  fold_left (classify center) intervals (mkBuckets [] [] []).

(** The loop that fills [self.intervals] from the sorted keys of [inner]. *)
Definition own_map (inner : odict) : odict :=
  map (fun k => (k, match odict_get inner k with
                    | Some items => items
                    | None => []
                    end))
      (sorted (keys inner)).

(** [IntervalNode.__init__]; [limit] is the number of nested calls the
    interpreter still allows. *)
Fixpoint IntervalNode (limit : nat) (intervals : list Interval) : result node_ref :=
  match limit with
  | O => Raise RecursionError
  | S limit' =>
      match intervals with
      | [] => Ok (Node [] None PyNone PyNone)
      | _ :: _ =>
          let center := get_center intervals in
          let bk := partition center intervals in
          let own := own_map (b_inner bk) in
          l <- match b_left bk with
               | [] => Ok PyNone
               | _ :: _ => IntervalNode limit' (b_left bk)
               end ;;
          r <- match b_right bk with
               | [] => Ok PyNone
               | _ :: _ => IntervalNode limit' (b_right bk)
               end ;;
          Ok (Node own (Some center) l r)
      end
  end.

(** [__len__]: [len(self.intervals) if self.intervals else 0] *)
Definition node_len (n : node_ref) : nat :=
  match n with
  | PyNone => 0
  | Node intervals _ _ _ => length intervals
  end.

(** Truth value of a node reference in a condition such as [if self.left]:
    [None] is false, and a node object, which defines [__len__] and no
    [__bool__], is true exactly when its [__len__] is not zero. *)
Definition truthy (n : node_ref) : bool :=
  match n with
  | PyNone => false
  | Node _ _ _ _ => negb (Nat.eqb (node_len n) 0)
  end.

(** The scan of [self.intervals] in [search], with its [break]. *)
Fixpoint search_own (entries : odict) (position : Q) : list Interval :=
  match entries with
  | [] => []
  | (entry, items) :: rest =>
      if IntervalOps.contains entry position
      then items ++ search_own rest position
      else if Qltb position (inject_Z (begin entry))
      then []
      else search_own rest position
  end.

(** [IntervalNode.search]; reading [self._center] on the node of an empty list
    raises [AttributeError], as does calling a method on [None]. *)
Fixpoint search (self : node_ref) (position : Q) : result (list Interval) :=
  match self with
  | PyNone => Raise AttributeError
  | Node intervals _center left_ right_ =>
      let results := search_own intervals position in
      match _center with
      | None => Raise AttributeError
      | Some center =>
          if Qltb position (inject_Z center) && truthy left_
          then items <- search left_ position ;; Ok (results ++ items)
          else if Qleb (inject_Z center) position && truthy right_
          then items <- search right_ position ;; Ok (results ++ items)
          else Ok results
      end
  end.

(** The scan of [self.intervals] in [get_overlaps], with its [break]. *)
Fixpoint overlaps_own (entries : odict) (b e : Q) : list Interval :=
  match entries with
  | [] => []
  | (entry, items) :: rest =>
      if IntervalOps.intersects entry b e
      then items ++ overlaps_own rest b e
      else if Qleb e (inject_Z (begin entry))
      then []
      else overlaps_own rest b e
  end.

(** [IntervalNode.get_overlaps] *)
Fixpoint get_overlaps (self : node_ref) (b e : Q) : result (list Interval) :=
  match self with
  | PyNone => Raise AttributeError
  | Node intervals _center left_ right_ =>
      let results := overlaps_own intervals b e in
      match _center with
      | None => Raise AttributeError
      | Some center =>
          results1 <- (if Qleb b (inject_Z center) && truthy left_
                       then items <- get_overlaps left_ b e ;; Ok (results ++ items)
                       else Ok results) ;;
          if Qltb (inject_Z center) e && truthy right_
          then items <- get_overlaps right_ b e ;; Ok (results1 ++ items)
          else Ok results1
      end
  end.

(** The interval objects of a dictionary, group after group. *)
Definition own_items (d : odict) : list Interval := flat_map snd d.

(** All the interval objects held by the nodes below a reference, node by
    node: left subtree, the node's own groups, right subtree. *)
Fixpoint inorder (n : node_ref) : list Interval :=
  match n with
  | PyNone => []
  | Node intervals _ left_ right_ =>
      inorder left_ ++ own_items intervals ++ inorder right_
  end.

(** [==] on lists of intervals *)
Fixpoint list_eq (a b : list Interval) : bool :=
  match a, b with
  | [], [] => true
  | x :: a', y :: b' => IntervalOps.eq x y && list_eq a' b'
  | _, _ => false
  end.

(** [OrderedDict.__eq__]: equal as dictionaries, and the keys in the same
    order. *)
Definition odict_eq (a b : odict) : bool :=
  Nat.eqb (length a) (length b)
  && forallb (fun kv => match odict_get b (fst kv) with
                        | Some items => list_eq (snd kv) items
                        | None => false
                        end) a
  && list_eq (keys a) (keys b).

(** [==] between two node references, as [IntervalNode.__eq__] evaluates it:
    the [and] chain stops at the first false operand; comparing a node object
    with [None] (either side) ends in [other.intervals] on [None]. *)
Fixpoint node_eq (a b : node_ref) : result bool :=
  match a, b with
  | PyNone, PyNone => Ok true
  | Node i1 _ l1 r1, Node i2 _ l2 r2 =>
      if odict_eq i1 i2
      then same_left <- node_eq l1 l2 ;;
           if same_left then node_eq r1 r2 else Ok false
      else Ok false
  | _, _ => Raise AttributeError
  end.

(** ** class IntervalTree

    [__init__], [build], [insert], [search], [get_overlaps], [__len__] and
    [__bool__] have the same text in _itree.py and in _tree.py.  A method takes
    the tree object and returns its result together with the tree object as
    the call leaves it. *)

Record IntervalTree : Type := mkTree {
  _head : node_ref;
  _intervals : list Interval;
  _in_sync : bool;
  _size : nat
}.

Definition method (A : Type) : Type := IntervalTree -> result A * IntervalTree.

Definition and_then {A B : Type} (m : method A) (k : A -> method B) : method B :=
  fun self =>
    match m self with
    | (Ok a, self') => k a self'
    | (Raise e, self') => (Raise e, self')
    end.

Definition ret {A : Type} (r : result A) : method A := fun self => (r, self).

Notation "x <~ m ;; k" := (and_then m (fun x => k))
  (at level 61, m at next level, right associativity).

Section RecursionLimit.

(** The interpreter's recursion limit left to a constructor call. *)
Variable limit : nat.

(** [IntervalTree.__init__] *)
Definition new_tree (intervals : list Interval) : result IntervalTree :=
  head <- IntervalNode limit intervals ;;
  Ok (mkTree head intervals true (length intervals)).

Definition build : method unit :=
  fun self =>
    if negb (_in_sync self)
    then match IntervalNode limit (_intervals self) with
         | Ok head =>
             (Ok tt, mkTree head (_intervals self) true (length (_intervals self)))
         | Raise e => (Raise e, self)
         end
    else (Ok tt, self).

Definition insert (interval : Interval) : method unit :=
  fun self =>
    (Ok tt, mkTree (_head self) (_intervals self ++ [interval]) false (_size self)).

Definition tree_search (position : Q) : method (list Interval) :=
  _ <~ build ;;
  fun self => (search (_head self) position, self).

Definition tree_get_overlaps (b e : Q) : method (list Interval) :=
  _ <~ build ;;
  fun self => (get_overlaps (_head self) b e, self).

Definition tree_len : method nat :=
  _ <~ build ;;
  fun self => (Ok (_size self), self).

Definition tree_bool : method bool :=
  n <~ tree_len ;;
  ret (Ok (negb (Nat.eqb n 0))).

End RecursionLimit.

(** The guard [if 0 < coverage > 1] of both [fuzzy_query] methods. *)
Definition coverage_guard (coverage : Q) : bool :=
  Qltb 0 coverage && Qltb 1 coverage.

(** *** The rest of class IntervalTree in _itree.py *)

Module Itree_py.

(** [fuzzy_query].  The helper [get_boundary_margin] is imported from another
    module of the package and is a parameter here. *)
Definition fuzzy_query (limit : nat) (get_boundary_margin : Q -> Q -> Q -> Q)
           (b e coverage : Q) : method (list Interval) :=
  if coverage_guard coverage
  then ret (Raise ValueError)
  else
    _ <~ build limit ;;
    let margin := get_boundary_margin b e coverage in
    let dist_begin := b - margin in
    let dist_end := e + margin in
    let prox_begin := b + margin in
    let prox_end := e - margin in
    found <~ tree_get_overlaps limit dist_begin dist_end ;;
    ret (Ok (filter (fun interval =>
                       Qleb (inject_Z (begin interval)) prox_begin
                       && Qleb prox_end (inject_Z (end_ interval)))
                    found)).

(** [__iter__] and [__next__]: the tree is its own iterator, and [__next__]
    is [pass], so that it returns [None] (here [None : option Interval]) and
    never raises. *)
Definition __iter__ (self : IntervalTree) : IntervalTree := self.

Definition __next__ : method (option Interval) :=
  fun self => (Ok None, self).

End Itree_py.

(** ** The iteration protocol

    [for x in it] and [list(it)] call [__next__] until it raises
    [StopIteration].  [for_loop next steps it] runs at most [steps] calls. *)

Inductive loop_outcome (A : Type) : Type :=
| Finished (items : list A)
| Failed (items : list A) (e : exn)
| Running (items : list A).

Arguments Finished {A} items.
Arguments Failed {A} items e.
Arguments Running {A} items.

Definition produced {A : Type} (x : A) (o : loop_outcome A) : loop_outcome A :=
  match o with
  | Finished items => Finished (x :: items)
  | Failed items e => Failed (x :: items) e
  | Running items => Running (x :: items)
  end.

Fixpoint for_loop {St A : Type} (next : St -> result A * St) (steps : nat) (it : St)
  : loop_outcome A :=
  match steps with
  | O => Running []
  | S steps' =>
      match next it with
      | (Ok x, it') => produced x (for_loop next steps' it')
      | (Raise StopIteration, _) => Finished []
      | (Raise e, _) => Failed [] e
      end
  end.

(** ** class IntervalTreeIterator (_tree.py)

    The iterator walks node objects through [left], [right] and [parent].  A
    node object is addressed by the steps that lead to it from the root, the
    last step first; [parent] drops that step. *)

Inductive direction : Type := GoLeft | GoRight.

Definition path : Type := list direction.

Definition child (d : direction) (n : node_ref) : node_ref :=
  match n with
  | PyNone => PyNone
  | Node _ _ left_ right_ =>
      match d with
      | GoLeft => left_
      | GoRight => right_
      end
  end.

Fixpoint node_at (root : node_ref) (p : path) : node_ref :=
  match p with
  | [] => root
  | d :: parent => child d (node_at root parent)
  end.

(** [IntervalNode.minimum], called on the node [n] found at [p]. *)
Fixpoint minimum (n : node_ref) (p : path) : path :=
  match n with
  | PyNone => p
  | Node _ _ left_ _ =>
      if truthy left_ then minimum left_ (GoLeft :: p) else p
  end.

(** [IntervalNode.maximum], called on the node [n] found at [p]. *)
Fixpoint maximum (n : node_ref) (p : path) : path :=
  match n with
  | PyNone => p
  | Node _ _ _ right_ =>
      if truthy right_ then maximum right_ (GoRight :: p) else p
  end.

Module IntervalTreeIterator.

Record t : Type := mk {
  initialized : bool;
  root : node_ref;
  node : option path;
  queue : option (list Interval)
}.

(** [__init__] *)
Definition init (root : node_ref) : t := mk false root None None.

(** [node_to_queue] *)
Definition node_to_queue (n : node_ref) : list Interval :=
  if truthy n
  then match n with
       | PyNone => []
       | Node intervals _ _ _ => own_items intervals
       end
  else [].

(** The [while y and node == y.right] loop of [successor], entered at the
    node found at [p]. *)
Fixpoint climb (root : node_ref) (p : path) : result (option path) :=
  match p with
  | [] => Ok None
  | _ :: y =>
      if truthy (node_at root y)
      then same <- node_eq (node_at root p) (child GoRight (node_at root y)) ;;
           if same then climb root y else Ok (Some y)
      else Ok (Some y)
  end.

(** [successor] *)
Definition successor (root : node_ref) (node : option path) : result (option path) :=
  match node with
  | None => Raise AttributeError
  | Some p =>
      let right_ := child GoRight (node_at root p) in
      if truthy right_
      then Ok (Some (minimum right_ (GoRight :: p)))
      else climb root p
  end.

Definition node_ref_of (root : node_ref) (node : option path) : node_ref :=
  match node with
  | None => PyNone
  | Some p => node_at root p
  end.

Definition queue_truthy (q : option (list Interval)) : bool :=
  match q with
  | None => false
  | Some items => negb (Nat.eqb (length items) 0)
  end.

(** The second half of [has_next], past the initialisation. *)
Definition advance (it : t) : result bool * t :=
  if queue_truthy (queue it)
  then (Ok true, it)
  else match successor (root it) (node it) with
       | Raise e => (Raise e, it)
       | Ok y =>
           let q := node_to_queue (node_ref_of (root it) y) in
           (Ok (negb (Nat.eqb (length q) 0)),
            mk (initialized it) (root it) y (Some q))
       end.

Definition has_next (it : t) : result bool * t :=
  if negb (initialized it)
  then if truthy (root it)
       then let m := minimum (root it) [] in
            advance (mk true (root it) (Some m)
                        (Some (node_to_queue (node_at (root it) m))))
       else (Ok false, it)
  else advance it.

(** [__next__]; [popleft] raises IndexError on an empty deque, which cannot
    happen after [has_next] has answered [True]. *)
Definition next (it : t) : result Interval * t :=
  match has_next it with
  | (Raise e, it') => (Raise e, it')
  | (Ok false, it') => (Raise StopIteration, it')
  | (Ok true, it') =>
      match queue it' with
      | Some (x :: rest) =>
          (Ok x, mk (initialized it') (root it') (node it') (Some rest))
      | _ => (Raise IndexError, it')
      end
  end.

End IntervalTreeIterator.

(** *** The rest of class IntervalTree in _tree.py *)

Module Tree_py.

(** [fuzzy_query] *)
Definition fuzzy_query (limit : nat) (get_boundary_margin : Q -> Q -> Q -> Q)
           (b e coverage : Q) : method (list Interval) :=
  if coverage_guard coverage
  then ret (Raise ValueError)
  else
    _ <~ build limit ;;
    let margin := get_boundary_margin b e coverage in
    let dist_begin := b - margin in
    let dist_end := e + margin in
    let prox_begin := b + margin in
    let prox_end := e - margin in
    found <~ tree_get_overlaps limit b e ;;
    ret (Ok (filter (fun interval =>
                       (Qleb dist_begin (inject_Z (begin interval))
                        && Qleb (inject_Z (begin interval)) prox_begin)
                       && (Qleb (inject_Z (end_ interval)) dist_end
                           && Qleb prox_end (inject_Z (end_ interval))))
                    found)).

(** [__iter__] *)
Definition __iter__ (limit : nat) : method IntervalTreeIterator.t :=
  _ <~ build limit ;;
  fun self => (Ok (IntervalTreeIterator.init (_head self)), self).

(** [list(tree)]: the iterator is created, then drained. *)
Definition to_list (limit steps : nat) (self : IntervalTree)
  : loop_outcome Interval :=
  match __iter__ limit self with
  | (Ok it, _) => for_loop IntervalTreeIterator.next steps it
  | (Raise e, _) => Failed [] e
  end.

End Tree_py.

(** ** Inputs of the repository's tests *)

(** The recursion limit of a fresh interpreter. *)
Definition default_limit : nat := 1000.

(** [make_intervals] of test__itree.py *)
Fixpoint make_intervals (a b : Z) (n : nat) : list Interval :=
  match n with
  | O => []
  | S n' => SimpleInterval a b :: make_intervals (a + 1) (b + 1) n'
  end.

(** The intervals of [setUp] in test_itree.py *)
Definition setUp_intervals : list Interval :=
  [SimpleInterval 0 40; SimpleInterval (-20) (-10); SimpleInterval 0 10;
   SimpleInterval 5 15; SimpleInterval 10 20; SimpleInterval 15 25;
   SimpleInterval 20 30; SimpleInterval 25 35].

(** Modelled from the spec: [get_boundary_margin] of ddalg.utils is imported by
    _itree.py but its module is not among the sources.  The specification
    asks for a margin that does not increase with the coverage and is 0 at
    coverage 1, and test_fuzzy_query expects +-1 at coverage .98 and +-2.5 at
    coverage .95 on a query of length 100: half of the uncovered length. *)
Definition linear_margin (b e coverage : Q) : Q :=
  (e - b) * (1 - coverage) / 2.

(** The tree a constructor call returns, or the tree of no interval when the
    call raises. *)
Definition tree_of (intervals : list Interval) : IntervalTree :=
  match new_tree default_limit intervals with
  | Ok tree => tree
  | Raise _ => mkTree (Node [] None PyNone PyNone) [] true 0
  end.

(** ** The classification rule and the results of the queries, in the words of
    the specification *)

Definition goes_left (center : Z) (i : Interval) : bool :=
  (end_ i <? center)%Z.

Definition goes_right (center : Z) (i : Interval) : bool :=
  negb (end_ i <? center)%Z && (begin i >=? center)%Z.

Definition stays (center : Z) (i : Interval) : bool :=
  negb (end_ i <? center)%Z && negb (begin i >=? center)%Z.



(** ** Invariants of a constructed node *)

(** The pair that [__eq__], [__hash__] and [__lt__] look at. *)
Definition bounds (i : Interval) : Z * Z := (begin i, end_ i).

(** The keys of a dictionary are pairwise different under [__eq__]. *)
Definition distinct_keys (d : odict) : Prop := NoDup (map bounds (keys d)).

(** The intervals of [L] that have the bounds of [k], in the order of [L]. *)
Definition group_of (L : list Interval) (k : Interval) : list Interval :=
  filter (IntervalOps.eq k) L.

(** [d] groups the intervals of [L] by their bounds: one key for each pair of
    bounds that occurs in [L], and under it the intervals with these bounds,
    in the order of [L]. *)
Definition grouped (L : list Interval) (d : odict) : Prop :=
  distinct_keys d
  /\ (forall k items, In (k, items) d -> In k L /\ items = group_of L k)
  /\ (forall i, In i L -> exists k, In k (keys d) /\ IntervalOps.eq k i = true).

(** Ascending order of (begin, end), strict and not strict. *)
Definition key_lt (a b : Interval) : Prop := IntervalOps.lt a b = true.
Definition key_le (a b : Interval) : Prop := IntervalOps.lt b a = false.

Definition ascending_keys (d : odict) : Prop := StronglySorted key_lt (keys d).

(** What the constructor establishes in every node of the tree it returns:
    the own map has distinct keys in ascending order, each key is the first
    interval of its group and the group has the bounds of the key; the own
    intervals straddle the center, the intervals below the left child end
    before it and those below the right child begin at or after it. *)
Fixpoint well_formed (n : node_ref) : Prop :=
  match n with
  | PyNone => True
  | Node own center l r =>
      distinct_keys own
      /\ ascending_keys own
      /\ (forall k items, In (k, items) own ->
             In k items /\ forall i, In i items -> IntervalOps.eq k i = true)
      /\ match center with
         | None => own = [] /\ l = PyNone /\ r = PyNone
         | Some c =>
             (forall i, In i (own_items own) -> stays c i = true)
             /\ (forall i, In i (inorder l) -> goes_left c i = true)
             /\ (forall i, In i (inorder r) -> goes_right c i = true)
         end
      /\ well_formed l /\ well_formed r
  end.

(** The entries of the own maps of a tree, node by node: left subtree, the
    node, right subtree. *)
Fixpoint entries (n : node_ref) : odict :=
  match n with
  | PyNone => []
  | Node own _ l r => entries l ++ own ++ entries r
  end.

(** The interval objects of a tree in the order in which a query that visits
    every node meets them: the node, left subtree, right subtree. *)
Fixpoint preorder (n : node_ref) : list Interval :=
  match n with
  | PyNone => []
  | Node own _ l r => own_items own ++ preorder l ++ preorder r
  end.


(** ** Trees on which the iterator of _tree.py walks every node *)

Fixpoint every_node (p : node_ref -> bool) (n : node_ref) : bool :=
  match n with
  | PyNone => true
  | Node _ _ l r => p n && every_node p l && every_node p r
  end.

(** A node that has a left child also has a right child. *)
Definition left_has_sibling (n : node_ref) : bool :=
  match n with
  | Node _ _ (Node _ _ _ _) PyNone => false
  | _ => true
  end.

(** The interval objects of one node, in the order of its own map. *)
Definition node_items (n : node_ref) : list Interval :=
  match n with
  | PyNone => []
  | Node own _ _ _ => own_items own
  end.

Module It := IntervalTreeIterator.

(** The next call of [__next__] on [st] moves the cursor to the node at [m]
    and returns the first interval of that node. *)
Definition enters (root : node_ref) (st : It.t) (m : path) : Prop :=
  forall x q,
    node_items (node_at root m) = x :: q ->
    It.next st = (Ok x, It.mk true root (Some m) (Some q)).

(** The cursor on the node at [p], with nothing left in the queue. *)
Definition drained (root : node_ref) (p : path) : It.t :=
  It.mk true root (Some p) (Some []).

(** The outcome of a loop that first produces the items of [l]. *)
Definition produced_all {A : Type} (l : list A) (o : loop_outcome A) : loop_outcome A :=
  fold_right produced o l.

(** Splits a conjunction into its conjuncts, and nothing else. *)
Ltac conjuncts := repeat match goal with |- _ /\ _ => split end.

(** ** The rest of class Interval *)

Module IntervalMethods.

(** [intersection] *)
Definition intersection (self other : Interval) : Z :=
  if (end_ self <=? begin other)%Z || (end_ other <=? begin self)%Z
  then 0%Z
  else Z.max (Z.min (end_ self) (end_ other) - Z.max (begin self) (begin other)) 1.

(** [__len__] *)
Definition __len__ (self : Interval) : Z := (end_ self - begin self)%Z.

End IntervalMethods.

(** ** The rest of class IntervalNode *)

(** [min_value]: [next(iter(self.intervals))], the first key; [next] raises
    StopIteration on an empty dictionary. *)
Definition min_value (self : node_ref) : result Interval :=
  match self with
  | PyNone => Raise AttributeError
  | Node intervals _ _ _ =>
      match keys intervals with
      | [] => Raise StopIteration
      | k :: _ => Ok k
      end
  end.

(** [max_value]: [next(reversed(self.intervals))], the last key. *)
Definition max_value (self : node_ref) : result Interval :=
  match self with
  | PyNone => Raise AttributeError
  | Node intervals _ _ _ =>
      match rev (keys intervals) with
      | [] => Raise StopIteration
      | k :: _ => Ok k
      end
  end.

(** ** class IntervalNodeFwdIterator (_itree.py)

    The iterator that [IntervalNode.__iter__] returns; it produces node
    objects, here the paths that address them. *)

Module IntervalNodeFwdIterator.

Record t : Type := mk {
  initialized : bool;
  root : node_ref;
  next : option path
}.

(** [__init__] *)
Definition init (root : node_ref) : t := mk false root None.

(** [successor]: the same text as in IntervalTreeIterator. *)
Definition successor (root : node_ref) (node : option path) : result (option path) :=
  match node with
  | None => Raise AttributeError
  | Some p =>
      let right_ := child GoRight (node_at root p) in
      if truthy right_
      then Ok (Some (minimum right_ (GoRight :: p)))
      else IntervalTreeIterator.climb root p
  end.

(** [_has_next] *)
Definition _has_next (it : t) : bool * t :=
  if negb (initialized it)
  then if negb (truthy (root it))
       then (false, it)
       else (true, mk true (root it) (Some (minimum (root it) [])))
  else (match next it with Some _ => true | None => false end, it).

(** [__next__] *)
Definition __next__ (it : t) : result path * t :=
  match _has_next it with
  | (true, it') =>
      match successor (root it') (next it') with
      | Ok y =>
          match next it' with
          | Some cur => (Ok cur, mk (initialized it') (root it') y)
          | None => (Raise AttributeError, it')
          end
      | Raise e => (Raise e, it')
      end
  | (false, it') => (Raise StopIteration, it')
  end.

End IntervalNodeFwdIterator.

(** [IntervalNode.__iter__] *)
Definition node_iter (self : node_ref) : IntervalNodeFwdIterator.t :=
  IntervalNodeFwdIterator.init self.

(** ** class IntervalNodeRevIterator (_itree.py) *)

Module IntervalNodeRevIterator.

Record t : Type := mk {
  initialized : bool;
  root : node_ref;
  next : option path
}.

(** [__init__] *)
Definition init (root : node_ref) : t := mk false root None.

(** The [while y and node == y.left] loop of [predecessor], entered at the
    node found at [p]. *)
Fixpoint climb (root : node_ref) (p : path) : result (option path) :=
  match p with
  | [] => Ok None
  | _ :: y =>
      if truthy (node_at root y)
      then same <- node_eq (node_at root p) (child GoLeft (node_at root y)) ;;
           if same then climb root y else Ok (Some y)
      else Ok (Some y)
  end.

(** [predecessor] *)
Definition predecessor (root : node_ref) (node : option path) : result (option path) :=
  match node with
  | None => Raise AttributeError
  | Some p =>
      let left_ := child GoLeft (node_at root p) in
      if truthy left_
      then Ok (Some (maximum left_ (GoLeft :: p)))
      else climb root p
  end.

(** [has_next] *)
Definition has_next (it : t) : bool * t :=
  if negb (initialized it)
  then if negb (truthy (root it))
       then (false, it)
       else (true, mk true (root it) (Some (maximum (root it) [])))
  else (match next it with Some _ => true | None => false end, it).

(** [__next__] *)
Definition __next__ (it : t) : result path * t :=
  match has_next it with
  | (true, it') =>
      match predecessor (root it') (next it') with
      | Ok y =>
          match next it' with
          | Some cur => (Ok cur, mk (initialized it') (root it') y)
          | None => (Raise AttributeError, it')
          end
      | Raise e => (Raise e, it')
      end
  | (false, it') => (Raise StopIteration, it')
  end.

End IntervalNodeRevIterator.

(** ** jaccard_query (_tree.py)

    [IntervalTree.jaccard_query]; the helper [jaccard_coefficient] is imported
    from another module of the package and is a parameter here, applied to
    the interval and to the bounds of [SimpleInterval.of(begin, end)]. *)
Definition jaccard_query (limit : nat) (jaccard_coefficient : Interval -> Q -> Q -> Q)
           (b e min_jaccard : Q) : method (list Interval) :=
  if coverage_guard min_jaccard
  then ret (Raise ValueError)
  else
    _ <~ build limit ;;
    found <~ tree_get_overlaps limit b e ;;
    ret (Ok (filter (fun interval =>
                       Qleb min_jaccard (jaccard_coefficient interval b e))
                    found)).

(** The paths of the nodes below the node [n] found at [p], in-order. *)
Fixpoint inorder_paths (n : node_ref) (p : path) : list path :=
  match n with
  | PyNone => []
  | Node _ _ l r => inorder_paths l (GoLeft :: p) ++ p :: inorder_paths r (GoRight :: p)
  end.

(** A node that has a right child also has a left child. *)
Definition right_has_sibling (n : node_ref) : bool :=
  match n with
  | Node _ _ PyNone (Node _ _ _ _) => false
  | _ => true
  end.

(** [insert] called once for each interval of a list. *)
Fixpoint insert_all (xs : list Interval) (self : IntervalTree) : IntervalTree :=
  match xs with
  | [] => self
  | x :: xs' => insert_all xs' (snd (insert x self))
  end.

Module FwdIt := IntervalNodeFwdIterator.
Module RevIt := IntervalNodeRevIterator.

(** The iterator object after [n] calls of [__next__], whatever they returned
    or raised. *)
Fixpoint after_calls {St A : Type} (next : St -> result A * St) (n : nat) (it : St)
  : St :=
  match n with
  | O => it
  | S n' => after_calls next n' (snd (next it))
  end.

Unset Implicit Arguments.

(** * Properties *)

(** ** The repository's tests, replayed on the model *)

Example test_get_center :
  get_center [SimpleInterval 1 2; SimpleInterval 3 4] = 2%Z
  /\ get_center [SimpleInterval 1 2; SimpleInterval 3 4; SimpleInterval 4 5] = 3%Z.
Proof. split; reflexivity. Qed.

Example test_integration_search :
  fst (tree_search default_limit 35 (tree_of setUp_intervals))
  = Ok [SimpleInterval 0 40; SimpleInterval 25 35].
Proof. vm_compute. reflexivity. Qed.

Example test_integration_get_overlaps :
  fst (tree_get_overlaps default_limit 15 20 (tree_of setUp_intervals))
  = Ok [SimpleInterval 0 40; SimpleInterval 10 20; SimpleInterval 15 25].
Proof. vm_compute. reflexivity. Qed.

Example test_integration_insert :
  let tree := tree_of setUp_intervals in
  fst (tree_search default_limit 40 tree) = Ok [SimpleInterval 0 40]
  /\ fst (tree_search default_limit 40
            (snd (insert (SimpleInterval 35 45) tree)))
     = Ok [SimpleInterval 0 40; SimpleInterval 35 45].
Proof. split; vm_compute; reflexivity. Qed.

Example test_search :
  let tree := tree_of (make_intervals 0 3 9) in
  fst (tree_search default_limit 0 tree) = Ok []
  /\ fst (tree_search default_limit 1 tree) = Ok [SimpleInterval 0 3]
  /\ fst (tree_search default_limit 6 tree)
     = Ok [SimpleInterval 3 6; SimpleInterval 4 7; SimpleInterval 5 8]
  /\ fst (tree_search default_limit 11 tree) = Ok [SimpleInterval 8 11]
  /\ fst (tree_search default_limit 12 tree) = Ok [].
Proof. cbv zeta; conjuncts; vm_compute; reflexivity. Qed.

Example test_get_overlaps :
  let tree := tree_of (make_intervals 0 3 9) in
  fst (tree_get_overlaps default_limit (-1) 0 tree) = Ok []
  /\ fst (tree_get_overlaps default_limit 0 1 tree) = Ok [SimpleInterval 0 3]
  /\ fst (tree_get_overlaps default_limit 4 6 tree)
     = Ok [SimpleInterval 2 5; SimpleInterval 3 6; SimpleInterval 4 7;
           SimpleInterval 5 8]
  /\ fst (tree_get_overlaps default_limit 10 11 tree) = Ok [SimpleInterval 8 11]
  /\ fst (tree_get_overlaps default_limit 11 12 tree) = Ok [].
Proof. cbv zeta; conjuncts; vm_compute; reflexivity. Qed.

Example test_fuzzy_query :
  let tree := tree_of (make_intervals (-5) 95 11) in
  fst (Itree_py.fuzzy_query default_limit linear_margin 0 100 1 tree)
  = Ok [SimpleInterval 0 100]
  /\ fst (Itree_py.fuzzy_query default_limit linear_margin 0 100 (98 # 100) tree)
     = Ok [SimpleInterval (-1) 99; SimpleInterval 0 100; SimpleInterval 1 101]
  /\ fst (Itree_py.fuzzy_query default_limit linear_margin 0 100 (95 # 100) tree)
     = Ok [SimpleInterval (-2) 98; SimpleInterval (-1) 99; SimpleInterval 0 100;
           SimpleInterval 1 101; SimpleInterval 2 102]
  /\ fst (Itree_py.fuzzy_query default_limit linear_margin 0 100 (3 # 2) tree)
     = Raise ValueError.
Proof. cbv zeta; conjuncts; vm_compute; reflexivity. Qed.

Example test_len_bool :
  fst (tree_len default_limit (tree_of [])) = Ok 0%nat
  /\ fst (tree_len default_limit (tree_of (make_intervals 0 3 9))) = Ok 9%nat
  /\ fst (tree_bool default_limit (tree_of (make_intervals 0 3 9))) = Ok true
  /\ fst (tree_bool default_limit (tree_of [])) = Ok false.
Proof. cbv zeta; conjuncts; vm_compute; reflexivity. Qed.

(** ** Construction may recurse for ever *)

Lemma IntervalNode_step (limit : nat) (i : Interval) (rest : list Interval) :
  IntervalNode (S limit) (i :: rest)
  = let center := get_center (i :: rest) in
    let bk := partition center (i :: rest) in
    l <- match b_left bk with
         | [] => Ok PyNone
         | _ :: _ => IntervalNode limit (b_left bk)
         end ;;
    r <- match b_right bk with
         | [] => Ok PyNone
         | _ :: _ => IntervalNode limit (b_right bk)
         end ;;
    Ok (Node (own_map (b_inner bk)) (Some center) l r).
Proof. reflexivity. Qed.

(** C1 (the code departs from the claim).  The list of the single interval
    (1,2) has center floor(1.5) = 1; the interval does not end before 1 and
    begins at 1, so it is put in the right bucket, which is the whole input
    again: the recursive call is made on the same list, and whatever recursion
    limit the interpreter grants, the constructor ends in RecursionError. *)
Theorem IntervalNode_unit_interval_recurses_for_ever :
  let input := [SimpleInterval 1 2] in
  b_right (partition (get_center input) input) = input
  /\ forall limit, IntervalNode limit input = Raise RecursionError.
Proof.
  cbv zeta. split; [ vm_compute; reflexivity | ].
  induction limit as [| limit IH]; [ reflexivity | ].
  rewrite IntervalNode_step. cbv zeta.
  replace (partition (get_center [SimpleInterval 1 2]) [SimpleInterval 1 2])
    with (mkBuckets [] [SimpleInterval 1 2] []) by (vm_compute; reflexivity).
  cbn [b_left b_right bind]. rewrite IH. reflexivity.
Qed.

(** ** Queries that skip a child whose own map is empty *)

(** C2 (the code departs from the claim).  In the tree of the integration
    test, the left child of the root is built from (-20,-10) and (0,10); its
    center is -5 and both intervals go to its children, so its own map is
    empty and the test [self.left] of the root is false.  search(5) then
    returns (0,40) only, although (0,10) is stored and 10 >= 5 > 0. *)
Theorem search_skips_child_with_empty_map :
  let tree := tree_of setUp_intervals in
  new_tree default_limit setUp_intervals = Ok tree
  /\ In (SimpleInterval 0 10) setUp_intervals
  /\ IntervalOps.contains (SimpleInterval 0 10) 5 = true
  /\ truthy (child GoLeft (_head tree)) = false
  /\ In (SimpleInterval 0 10) (inorder (child GoLeft (_head tree)))
  /\ fst (tree_search default_limit 5 tree) = Ok [SimpleInterval 0 40].
Proof.
  cbv zeta. conjuncts; try (vm_compute; reflexivity).
  - right. right. left. reflexivity.
  - vm_compute. right. left. reflexivity.
Qed.

(** C3 (the code departs from the claim).  Same tree, same cause:
    get_overlaps(0,5) returns (0,40) only, although (0,10) is stored,
    5 > 0 and 0 < 10. *)
Theorem get_overlaps_skips_child_with_empty_map :
  let tree := tree_of setUp_intervals in
  new_tree default_limit setUp_intervals = Ok tree
  /\ In (SimpleInterval 0 10) setUp_intervals
  /\ IntervalOps.intersects (SimpleInterval 0 10) 0 5 = true
  /\ truthy (child GoLeft (_head tree)) = false
  /\ fst (tree_get_overlaps default_limit 0 5 tree) = Ok [SimpleInterval 0 40].
Proof.
  cbv zeta. conjuncts; try (vm_compute; reflexivity).
  right. right. left. reflexivity.
Qed.

(** C9 (the code departs from the claim).  The query after an insert does
    rebuild the root from the whole backing sequence, but the rebuilt tree is
    the one of C2: after insert((0,10)), search(5) does not return (0,10). *)
Theorem insert_then_search_misses_inserted :
  let before := tree_of [SimpleInterval 0 40; SimpleInterval (-20) (-10);
                         SimpleInterval 5 15; SimpleInterval 10 20;
                         SimpleInterval 15 25; SimpleInterval 20 30;
                         SimpleInterval 25 35] in
  let X := SimpleInterval 0 10 in
  let inserted := snd (insert X before) in
  let after := snd (tree_search default_limit 5 inserted) in
  _in_sync before = true
  /\ _in_sync inserted = false
  /\ IntervalOps.contains X 5 = true
  /\ IntervalNode default_limit (_intervals inserted) = Ok (_head after)
  /\ In X (_intervals after)
  /\ _in_sync after = true
  /\ _size after = 8%nat
  /\ fst (tree_search default_limit 5 inserted) = Ok [SimpleInterval 0 40]
  /\ fst (tree_get_overlaps default_limit 0 5 inserted) = Ok [SimpleInterval 0 40].
Proof.
  cbv zeta. conjuncts; try (vm_compute; reflexivity).
  vm_compute. do 7 right. left. reflexivity.
Qed.

(** ** The empty tree *)

(** C5 (the code departs from the claim).  The constructor returns from the
    node of an empty list before [_center] is assigned; every query reads
    [self._center] after the scan of the own map and raises AttributeError. *)
Theorem empty_tree_queries_raise :
  let tree := tree_of [] in
  new_tree default_limit [] = Ok tree
  /\ (forall limit p, fst (tree_search limit p tree) = Raise AttributeError)
  /\ (forall limit b e, fst (tree_get_overlaps limit b e tree) = Raise AttributeError)
  /\ (forall limit margin b e,
         fst (Itree_py.fuzzy_query limit margin b e 1 tree) = Raise AttributeError)
  /\ (forall limit margin b e coverage,
         fst (Itree_py.fuzzy_query limit margin b e coverage tree)
         = if coverage_guard coverage then Raise ValueError else Raise AttributeError)
  /\ (forall limit margin b e coverage,
         fst (Tree_py.fuzzy_query limit margin b e coverage tree)
         = if coverage_guard coverage then Raise ValueError else Raise AttributeError).
Proof.
  cbv zeta. conjuncts; intros; try (vm_compute; reflexivity).
  - unfold Itree_py.fuzzy_query. destruct (coverage_guard coverage); reflexivity.
  - unfold Tree_py.fuzzy_query. destruct (coverage_guard coverage); reflexivity.
Qed.

(** ** The coverage guard *)

(** Past the guard, [fuzzy_query] of _itree.py rebuilds a tree that is out of
    sync, whatever the margin helper and the queries return. *)
Lemma fuzzy_query_rebuilds (limit : nat) (margin : Q -> Q -> Q -> Q)
      (b e coverage : Q) (tree : IntervalTree) (head : node_ref) :
  coverage_guard coverage = false ->
  _in_sync tree = false ->
  IntervalNode limit (_intervals tree) = Ok head ->
  snd (Itree_py.fuzzy_query limit margin b e coverage tree)
  = mkTree head (_intervals tree) true (length (_intervals tree)).
Proof.
  intros Hguard Hsync Hhead.
  unfold Itree_py.fuzzy_query, tree_get_overlaps, and_then, build, ret.
  rewrite Hguard, Hsync. cbn [negb]. rewrite Hhead. cbn [_in_sync negb _head].
  destruct (get_overlaps head _ _); reflexivity.
Qed.

(** C6 (the code departs from the claim).  [0 < coverage > 1] is
    [0 < coverage and coverage > 1]: a negative coverage passes the guard.
    With coverage -1/2 the query of test_fuzzy_query raises nothing and
    returns the eleven intervals, in both versions of the method; and on a
    tree that is out of sync the call goes on to rebuild the tree, whatever
    the margin helper does afterwards. *)
Theorem fuzzy_query_accepts_negative_coverage :
  let tree := tree_of (make_intervals (-5) 95 11) in
  let dirty := snd (insert (SimpleInterval 0 100) tree) in
  coverage_guard (-1 # 2) = false
  /\ fst (Itree_py.fuzzy_query default_limit linear_margin 0 100 (-1 # 2) tree)
     = Ok (make_intervals (-5) 95 11)
  /\ fst (Tree_py.fuzzy_query default_limit linear_margin 0 100 (-1 # 2) tree)
     = Ok (make_intervals (-5) 95 11)
  /\ _in_sync dirty = false
  /\ forall margin,
       _in_sync (snd (Itree_py.fuzzy_query default_limit margin 0 100 (-1 # 2) dirty))
       = true.
Proof.
  cbv zeta. conjuncts; try (vm_compute; reflexivity).
  intros margin.
  assert (Hhead : exists head,
             IntervalNode default_limit
               (_intervals (snd (insert (SimpleInterval 0 100)
                                   (tree_of (make_intervals (-5) 95 11)))))
             = Ok head).
  { eexists. vm_compute. reflexivity. }
  destruct Hhead as [head Hhead].
  rewrite (fuzzy_query_rebuilds default_limit margin 0 100 (-1 # 2) _ head);
    [ reflexivity | vm_compute; reflexivity | vm_compute; reflexivity | exact Hhead ].
Qed.

(** ** The tree of _itree.py as its own iterator *)

(** C10.  [__iter__] returns the tree itself, and however many times the
    loop calls [__next__], every call returns [None], none raises
    StopIteration and the tree is left as it was: the loop is still running
    after any number of steps and has produced no interval. *)
Theorem itree_iteration_yields_None_for_ever :
  forall (self : IntervalTree) (steps : nat),
    Itree_py.__iter__ self = self
    /\ Itree_py.__next__ self = (Ok None, self)
    /\ for_loop Itree_py.__next__ steps (Itree_py.__iter__ self) = Running (repeat None steps).
Proof.
  intros self steps. conjuncts; try reflexivity.
  unfold Itree_py.__iter__. induction steps as [| steps IH]; [ reflexivity | ].
  cbn [for_loop Itree_py.__next__ repeat]. rewrite IH. reflexivity.
Qed.

(** ** fuzzy_query as a filter of get_overlaps *)

Lemma coverage_guard_false (coverage : Q) :
  coverage <= 1 -> coverage_guard coverage = false.
Proof.
  intros Hle. unfold coverage_guard, Qltb.
  apply Qle_bool_iff in Hle. rewrite Hle. apply andb_false_r.
Qed.




(** ** The partition of a construction call *)

Lemma key_eq_refl (k : Interval) : IntervalOps.eq k k = true.
Proof.
  unfold IntervalOps.eq. rewrite !Z.eqb_refl. reflexivity.
Qed.

Lemma key_eq_spec (a b : Interval) :
  IntervalOps.eq a b = true <-> begin a = begin b /\ end_ a = end_ b.
Proof.
  unfold IntervalOps.eq. rewrite andb_true_iff, !Z.eqb_eq. tauto.
Qed.

Lemma key_eq_sym (a b : Interval) : IntervalOps.eq a b = IntervalOps.eq b a.
Proof.
  unfold IntervalOps.eq. rewrite (Z.eqb_sym (begin a)), (Z.eqb_sym (end_ a)).
  reflexivity.
Qed.

Lemma key_eq_trans (a b c : Interval) :
  IntervalOps.eq a b = true -> IntervalOps.eq b c = true -> IntervalOps.eq a c = true.
Proof.
  rewrite !key_eq_spec. intros [H1 H2] [H3 H4]. split; congruence.
Qed.

Lemma fold_classify_left (c : Z) (S : list Interval) (bk : buckets) :
  b_left (fold_left (classify c) S bk) = b_left bk ++ filter (goes_left c) S.
Proof.
  revert bk. induction S as [| i S IH]; intros bk; cbn [fold_left filter].
  - symmetry. apply app_nil_r.
  - rewrite IH. unfold classify, goes_left.
    destruct (end_ i <? c)%Z; cbn [b_left].
    + rewrite <- app_assoc. reflexivity.
    + destruct (begin i >=? c)%Z; reflexivity.
Qed.

Lemma fold_classify_right (c : Z) (S : list Interval) (bk : buckets) :
  b_right (fold_left (classify c) S bk) = b_right bk ++ filter (goes_right c) S.
Proof.
  revert bk. induction S as [| i S IH]; intros bk; cbn [fold_left filter].
  - symmetry. apply app_nil_r.
  - rewrite IH. unfold classify, goes_right.
    destruct (end_ i <? c)%Z; cbn [b_right negb andb]; [ reflexivity | ].
    destruct (begin i >=? c)%Z; cbn [b_right].
    + rewrite <- app_assoc. reflexivity.
    + reflexivity.
Qed.

Lemma fold_classify_inner (c : Z) (S : list Interval) (bk : buckets) :
  b_inner (fold_left (classify c) S bk)
  = fold_left inner_append (filter (stays c) S) (b_inner bk).
Proof.
  revert bk. induction S as [| i S IH]; intros bk; cbn [fold_left filter].
  - reflexivity.
  - rewrite IH. unfold classify, stays.
    destruct (end_ i <? c)%Z; cbn [b_inner negb andb]; [ reflexivity | ].
    destruct (begin i >=? c)%Z; reflexivity.
Qed.

Lemma partition_left (c : Z) (S : list Interval) :
  b_left (partition c S) = filter (goes_left c) S.
Proof. unfold partition. rewrite fold_classify_left. reflexivity. Qed.

Lemma partition_right (c : Z) (S : list Interval) :
  b_right (partition c S) = filter (goes_right c) S.
Proof. unfold partition. rewrite fold_classify_right. reflexivity. Qed.

Lemma partition_inner (c : Z) (S : list Interval) :
  b_inner (partition c S) = fold_left inner_append (filter (stays c) S) [].
Proof. unfold partition. rewrite fold_classify_inner. reflexivity. Qed.

(** Every interval goes to exactly one bucket. *)
Lemma one_bucket (c : Z) (i : Interval) :
  (goes_left c i = true /\ stays c i = false /\ goes_right c i = false)
  \/ (goes_left c i = false /\ stays c i = true /\ goes_right c i = false)
  \/ (goes_left c i = false /\ stays c i = false /\ goes_right c i = true).
Proof.
  unfold goes_left, stays, goes_right.
  destruct (end_ i <? c)%Z, (begin i >=? c)%Z; cbn; tauto.
Qed.

Lemma three_filters_perm (c : Z) (S : list Interval) :
  Permutation (filter (goes_left c) S ++ filter (stays c) S ++ filter (goes_right c) S) S.
Proof.
  induction S as [| i S IH]; cbn [filter]; [ constructor | ].
  destruct (one_bucket c i) as [(-> & -> & ->) | [(-> & -> & ->) | (-> & -> & ->)]].
  - cbn [app]. constructor. exact IH.
  - symmetry. apply Permutation_cons_app. symmetry. exact IH.
  - symmetry. rewrite app_assoc. apply Permutation_cons_app.
    rewrite <- app_assoc. symmetry. exact IH.
Qed.

(** ** The dictionary of a node *)

Lemma key_eq_bounds (a b : Interval) :
  IntervalOps.eq a b = true <-> bounds a = bounds b.
Proof.
  rewrite key_eq_spec. unfold bounds. split.
  - intros [-> ->]. reflexivity.
  - intros H. injection H as -> ->. split; reflexivity.
Qed.

Lemma key_eq_false_bounds (a b : Interval) :
  IntervalOps.eq a b = false <-> bounds a <> bounds b.
Proof.
  rewrite <- key_eq_bounds. destruct (IntervalOps.eq a b); split; congruence.
Qed.

Lemma keys_inner_append (d : odict) (x : Interval) :
  keys (inner_append d x) = keys d
  \/ (keys (inner_append d x) = keys d ++ [x]
      /\ forall k, In k (keys d) -> IntervalOps.eq k x = false).
Proof.
  induction d as [| [k items] rest IH]; cbn [inner_append keys map fst].
  - right. split; [ reflexivity | intros k [] ].
  - destruct (IntervalOps.eq k x) eqn:E; cbn [keys map fst].
    + left. reflexivity.
    + fold (keys rest). fold (keys (inner_append rest x)).
      destruct IH as [-> | [-> Hnone]].
      * left. reflexivity.
      * right. split; [ reflexivity | ].
        intros k' [<- | Hin]; [ exact E | apply Hnone; exact Hin ].
Qed.

Lemma inner_append_distinct (d : odict) (x : Interval) :
  distinct_keys d -> distinct_keys (inner_append d x).
Proof.
  unfold distinct_keys. intros Hd.
  destruct (keys_inner_append d x) as [-> | [-> Hnone]]; [ exact Hd | ].
  rewrite map_app. cbn [map].
  apply NoDup_rev in Hd. rewrite <- (rev_involutive (map bounds (keys d) ++ [bounds x])).
  apply NoDup_rev. rewrite rev_app_distr. cbn [rev app].
  constructor; [ | exact Hd ].
  rewrite <- in_rev. intros Hin. apply in_map_iff in Hin.
  destruct Hin as (k & Hk & Hin). apply Hnone in Hin.
  apply key_eq_false_bounds in Hin. contradiction.
Qed.

Lemma inner_append_has_key (d : odict) (x : Interval) :
  exists k, In k (keys (inner_append d x)) /\ IntervalOps.eq k x = true.
Proof.
  induction d as [| [k items] rest IH]; cbn [inner_append].
  - exists x. split; [ left; reflexivity | apply key_eq_refl ].
  - destruct (IntervalOps.eq k x) eqn:E.
    + exists k. split; [ left; reflexivity | exact E ].
    + destruct IH as (k' & Hin & Hk'). exists k'. split; [ right; exact Hin | exact Hk' ].
Qed.

Lemma keys_inner_append_incl (d : odict) (x k : Interval) :
  In k (keys d) -> In k (keys (inner_append d x)).
Proof.
  intros Hin. destruct (keys_inner_append d x) as [-> | [-> _]];
    [ exact Hin | apply in_or_app; left; exact Hin ].
Qed.

Lemma distinct_keys_tail (k : Interval) (items : list Interval) (rest : odict) :
  distinct_keys ((k, items) :: rest) ->
  distinct_keys rest /\ forall k', In k' (keys rest) -> IntervalOps.eq k k' = false.
Proof.
  unfold distinct_keys. cbn [keys map fst]. intros Hd. inversion Hd as [| ? ? Hnot Hrest].
  split; [ exact Hrest | ].
  intros k' Hin. apply key_eq_false_bounds. intros Heq. apply Hnot.
  rewrite Heq. apply in_map. exact Hin.
Qed.

(** The entries after an append: an old entry, extended by [x] when its key
    has the bounds of [x], or the new entry of [x]. *)
Lemma inner_append_In (d : odict) (x k : Interval) (items : list Interval) :
  distinct_keys d ->
  In (k, items) (inner_append d x) ->
  (exists items0, In (k, items0) d
                  /\ items = items0 ++ (if IntervalOps.eq k x then [x] else []))
  \/ (k = x /\ items = [x] /\ forall k', In k' (keys d) -> IntervalOps.eq k' x = false).
Proof.
  induction d as [| [k0 items0] rest IH]; intros Hd Hin; cbn [inner_append] in Hin.
  - destruct Hin as [Heq | []]. injection Heq as <- <-.
    right. split; [ reflexivity | split; [ reflexivity | intros k' [] ] ].
  - destruct (distinct_keys_tail _ _ _ Hd) as [Hrest Hk0].
    destruct (IntervalOps.eq k0 x) eqn:E.
    + left. destruct Hin as [Heq | Hin].
      * injection Heq as <- <-. exists items0. rewrite E.
        split; [ left; reflexivity | reflexivity ].
      * exists items. split; [ right; exact Hin | ].
        assert (Hk : IntervalOps.eq k x = false).
        { destruct (IntervalOps.eq k x) eqn:E'; [ | reflexivity ].
          assert (Hkk : IntervalOps.eq k0 k = true).
          { apply key_eq_trans with x; [ exact E | rewrite key_eq_sym; exact E' ]. }
          rewrite Hk0 in Hkk; [ discriminate | ].
          apply in_map_iff. exists (k, items). split; [ reflexivity | exact Hin ]. }
        rewrite Hk. symmetry. apply app_nil_r.
    + destruct Hin as [Heq | Hin].
      * injection Heq as <- <-. left. exists items0. rewrite E.
        split; [ left; reflexivity | symmetry; apply app_nil_r ].
      * destruct (IH Hrest Hin) as [(items1 & Hin1 & ->) | (-> & -> & Hnone)].
        -- left. exists items1. split; [ right; exact Hin1 | reflexivity ].
        -- right. split; [ reflexivity | split; [ reflexivity | ] ].
           intros k' [<- | Hin']; [ exact E | apply Hnone; exact Hin' ].
Qed.

Lemma grouped_nil : grouped [] [].
Proof.
  split; [ constructor | split ].
  - intros k items [].
  - intros i [].
Qed.

Lemma filter_none (f : Interval -> bool) (L : list Interval) :
  (forall i, In i L -> f i = false) -> filter f L = [].
Proof.
  induction L as [| a L IH]; intros H; cbn [filter]; [ reflexivity | ].
  rewrite (H a (or_introl eq_refl)). apply IH. intros i Hi. apply H. right. exact Hi.
Qed.

Lemma grouped_append (L : list Interval) (d : odict) (x : Interval) :
  grouped L d -> grouped (L ++ [x]) (inner_append d x).
Proof.
  intros (Hd & Hentries & Hcover). split; [ | split ].
  - apply inner_append_distinct. exact Hd.
  - intros k items Hin. unfold group_of. rewrite filter_app. cbn [filter].
    destruct (inner_append_In d x k items Hd Hin) as [(items0 & Hin0 & ->) | (-> & -> & Hnone)].
    + destruct (Hentries _ _ Hin0) as [HkL ->]. split.
      * apply in_or_app. left. exact HkL.
      * reflexivity.
    + split; [ apply in_or_app; right; left; reflexivity | ].
      rewrite key_eq_refl. rewrite filter_none; [ reflexivity | ].
      intros i Hi. destruct (Hcover i Hi) as (k' & Hk' & Heq).
      destruct (IntervalOps.eq x i) eqn:E; [ | reflexivity ].
      rewrite <- (Hnone k' Hk'). symmetry.
      apply key_eq_trans with i; [ exact Heq | rewrite key_eq_sym; exact E ].
  - intros i Hi. apply in_app_or in Hi. destruct Hi as [Hi | [<- | []]].
    + destruct (Hcover i Hi) as (k & Hk & Heq). exists k.
      split; [ apply keys_inner_append_incl; exact Hk | exact Heq ].
    + apply inner_append_has_key.
Qed.

Lemma grouped_fold (L' L : list Interval) (d : odict) :
  grouped L d -> grouped (L ++ L') (fold_left inner_append L' d).
Proof.
  revert L d. induction L' as [| x L' IH]; intros L d Hg; cbn [fold_left].
  - rewrite app_nil_r. exact Hg.
  - replace (L ++ x :: L') with ((L ++ [x]) ++ L') by (rewrite <- app_assoc; reflexivity).
    apply IH. apply grouped_append. exact Hg.
Qed.

Lemma partition_inner_grouped (c : Z) (S : list Interval) :
  grouped (filter (stays c) S) (b_inner (partition c S)).
Proof.
  rewrite partition_inner. apply (grouped_fold (filter (stays c) S) [] [] grouped_nil).
Qed.

Lemma inner_append_perm (d : odict) (x : Interval) :
  Permutation (own_items (inner_append d x)) (own_items d ++ [x]).
Proof.
  unfold own_items.
  induction d as [| [k items] rest IH]; cbn [inner_append flat_map snd app].
  - reflexivity.
  - destruct (IntervalOps.eq k x); cbn [flat_map snd].
    + rewrite <- !app_assoc. apply Permutation_app_head. apply Permutation_app_comm.
    + rewrite <- app_assoc. apply Permutation_app_head. exact IH.
Qed.

Lemma fold_inner_append_perm (L : list Interval) (d : odict) :
  Permutation (own_items (fold_left inner_append L d)) (own_items d ++ L).
Proof.
  revert d. induction L as [| x L IH]; intros d; cbn [fold_left].
  - rewrite app_nil_r. reflexivity.
  - rewrite IH. rewrite inner_append_perm. rewrite <- app_assoc. reflexivity.
Qed.

(** *** sorted *)

Lemma insert_sorted_perm (x : Interval) (l : list Interval) :
  Permutation (insert_sorted x l) (x :: l).
Proof.
  induction l as [| y l IH]; cbn [insert_sorted]; [ reflexivity | ].
  destruct (IntervalOps.lt x y); [ reflexivity | ].
  rewrite IH. apply perm_swap.
Qed.

Lemma fold_insert_sorted_perm (l acc : list Interval) :
  Permutation (fold_left (fun acc x => insert_sorted x acc) l acc) (l ++ acc).
Proof.
  revert acc. induction l as [| x l IH]; intros acc; cbn [fold_left app].
  - reflexivity.
  - rewrite IH. rewrite insert_sorted_perm. symmetry. apply Permutation_middle.
Qed.

Lemma sorted_perm (l : list Interval) : Permutation (sorted l) l.
Proof.
  unfold sorted. rewrite fold_insert_sorted_perm. rewrite app_nil_r. reflexivity.
Qed.

Lemma lt_spec (a b : Interval) :
  IntervalOps.lt a b = true
  <-> (begin a < begin b \/ (begin a = begin b /\ end_ a < end_ b))%Z.
Proof.
  unfold IntervalOps.lt.
  destruct (Z.eqb_spec (begin a) (begin b)) as [Heq | Hne]; cbn [negb].
  - rewrite Z.ltb_lt. lia.
  - rewrite Z.ltb_lt. lia.
Qed.

Lemma lt_false_spec (a b : Interval) :
  IntervalOps.lt a b = false
  <-> (begin b < begin a \/ (begin a = begin b /\ end_ b <= end_ a))%Z.
Proof.
  destruct (IntervalOps.lt a b) eqn:E.
  - apply lt_spec in E. split; [ discriminate | lia ].
  - split; [ intros _ | reflexivity ].
    assert (H : ~ (begin a < begin b \/ (begin a = begin b /\ end_ a < end_ b))%Z).
    { intros H. apply lt_spec in H. congruence. }
    lia.
Qed.

Lemma key_lt_le (a b : Interval) : key_lt a b -> key_le a b.
Proof.
  unfold key_lt, key_le. rewrite lt_spec, lt_false_spec. lia.
Qed.

Lemma key_le_trans (a b c : Interval) : key_le a b -> key_le b c -> key_le a c.
Proof.
  unfold key_le. rewrite !lt_false_spec. lia.
Qed.

Lemma key_le_lt (a b : Interval) : key_le a b -> bounds a <> bounds b -> key_lt a b.
Proof.
  unfold key_le, key_lt, bounds. rewrite lt_spec, lt_false_spec. intros H Hne.
  destruct (Z.eq_dec (begin a) (begin b)) as [Hb | Hb];
    destruct (Z.eq_dec (end_ a) (end_ b)) as [He | He]; try lia.
  exfalso. apply Hne. rewrite Hb, He. reflexivity.
Qed.

Lemma insert_sorted_Sorted (x : Interval) (l : list Interval) :
  Sorted key_le l -> Sorted key_le (insert_sorted x l).
Proof.
  induction l as [| y l IH]; intros Hs; cbn [insert_sorted].
  - constructor; constructor.
  - destruct (IntervalOps.lt x y) eqn:E.
    + constructor; [ exact Hs | ]. constructor. apply key_lt_le. exact E.
    + inversion Hs as [| ? ? Hl Hhd]; subst.
      constructor; [ apply IH; exact Hl | ].
      destruct l as [| z l]; cbn [insert_sorted].
      * constructor. exact E.
      * destruct (IntervalOps.lt x z); constructor.
        -- exact E.
        -- inversion Hhd; assumption.
Qed.

Lemma fold_insert_sorted_Sorted (l acc : list Interval) :
  Sorted key_le acc ->
  Sorted key_le (fold_left (fun acc x => insert_sorted x acc) l acc).
Proof.
  revert acc. induction l as [| x l IH]; intros acc Hs; cbn [fold_left].
  - exact Hs.
  - apply IH. apply insert_sorted_Sorted. exact Hs.
Qed.

Lemma sorted_Sorted (l : list Interval) : Sorted key_le (sorted l).
Proof.
  apply fold_insert_sorted_Sorted. constructor.
Qed.

Lemma distinct_Sorted_ascending (l : list Interval) :
  NoDup (map bounds l) -> Sorted key_le l -> StronglySorted key_lt l.
Proof.
  intros Hd Hs. apply Sorted_StronglySorted in Hs;
    [ | intros a b c; apply key_le_trans ].
  induction Hs as [| a l Hs IH Hall]; [ constructor | ].
  cbn [map] in Hd. inversion Hd as [| ? ? Hnot Hrest]; subst.
  constructor; [ apply IH; exact Hrest | ].
  rewrite Forall_forall in *. intros b Hb.
  apply key_le_lt; [ apply Hall; exact Hb | ].
  intros Heq. apply Hnot. rewrite Heq. apply in_map. exact Hb.
Qed.

(** *** own_map *)

Lemma own_map_keys (d : odict) : keys (own_map d) = sorted (keys d).
Proof.
  unfold own_map, keys at 1. rewrite map_map. cbn [fst]. apply map_id.
Qed.

Lemma odict_get_In (d : odict) (k : Interval) (items : list Interval) :
  distinct_keys d -> In (k, items) d -> odict_get d k = Some items.
Proof.
  induction d as [| [k0 items0] rest IH]; intros Hd Hin; [ destruct Hin | ].
  destruct (distinct_keys_tail _ _ _ Hd) as [Hrest Hk0]. cbn [odict_get].
  destruct Hin as [Heq | Hin].
  - injection Heq as -> ->. rewrite key_eq_refl. reflexivity.
  - rewrite Hk0; [ apply IH; assumption | ].
    apply in_map_iff. exists (k, items). split; [ reflexivity | exact Hin ].
Qed.

Lemma in_keys (d : odict) (k : Interval) :
  In k (keys d) <-> exists items, In (k, items) d.
Proof.
  unfold keys. rewrite in_map_iff. split.
  - intros ([k' items] & Hk & Hin). cbn in Hk. subst k'. exists items. exact Hin.
  - intros (items & Hin). exists (k, items). split; [ reflexivity | exact Hin ].
Qed.

Lemma own_map_In (d : odict) (k : Interval) (items : list Interval) :
  distinct_keys d -> (In (k, items) (own_map d) <-> In (k, items) d).
Proof.
  intros Hd. unfold own_map. rewrite in_map_iff. split.
  - intros (k0 & Heq & Hin). injection Heq as -> <-.
    apply (Permutation_in _ (sorted_perm (keys d))) in Hin.
    apply in_keys in Hin. destruct Hin as (items0 & Hin).
    rewrite (odict_get_In _ _ _ Hd Hin). exact Hin.
  - intros Hin. exists k. split.
    + rewrite (odict_get_In _ _ _ Hd Hin). reflexivity.
    + apply (Permutation_in _ (Permutation_sym (sorted_perm (keys d)))).
      apply in_keys. exists items. exact Hin.
Qed.

Lemma own_map_distinct (d : odict) : distinct_keys d -> distinct_keys (own_map d).
Proof.
  unfold distinct_keys. rewrite own_map_keys. intros Hd.
  apply (Permutation_NoDup (l := map bounds (keys d))); [ | exact Hd ].
  apply Permutation_map. symmetry. apply sorted_perm.
Qed.

Lemma own_map_ascending (d : odict) : distinct_keys d -> ascending_keys (own_map d).
Proof.
  intros Hd. unfold ascending_keys. apply distinct_Sorted_ascending.
  - apply own_map_distinct. exact Hd.
  - rewrite own_map_keys. apply sorted_Sorted.
Qed.

Lemma own_map_grouped (L : list Interval) (d : odict) :
  grouped L d -> grouped L (own_map d).
Proof.
  intros (Hd & Hentries & Hcover). split; [ | split ].
  - apply own_map_distinct. exact Hd.
  - intros k items Hin. apply Hentries. apply (own_map_In _ _ _ Hd). exact Hin.
  - intros i Hi. destruct (Hcover i Hi) as (k & Hk & Heq). exists k.
    split; [ | exact Heq ].
    rewrite own_map_keys. apply (Permutation_in _ (Permutation_sym (sorted_perm _))).
    exact Hk.
Qed.

Lemma flat_map_get_entries (d0 l : odict) :
  (forall kv, In kv l -> odict_get d0 (fst kv) = Some (snd kv)) ->
  flat_map (fun k => match odict_get d0 k with
                     | Some items => items
                     | None => []
                     end) (map fst l)
  = flat_map snd l.
Proof.
  induction l as [| kv rest IH]; intros H; cbn [map flat_map]; [ reflexivity | ].
  rewrite (H kv (or_introl eq_refl)). f_equal.
  apply IH. intros kv' Hin. apply H. right. exact Hin.
Qed.

Lemma flat_map_get_keys (d : odict) :
  distinct_keys d ->
  flat_map (fun k => match odict_get d k with
                     | Some items => items
                     | None => []
                     end) (keys d)
  = own_items d.
Proof.
  intros Hd. apply flat_map_get_entries.
  intros [k items] Hin. apply (odict_get_In _ _ _ Hd Hin).
Qed.

Lemma own_map_perm (d : odict) :
  distinct_keys d -> Permutation (own_items (own_map d)) (own_items d).
Proof.
  intros Hd. rewrite <- (flat_map_get_keys _ Hd).
  unfold own_map, own_items at 1.
  rewrite flat_map_concat_map, map_map. cbn [snd]. rewrite <- flat_map_concat_map.
  apply Permutation_flat_map. apply sorted_perm.
Qed.

(** The own map that a construction call with center [c] builds from [S]. *)
Lemma own_of_partition (c : Z) (S : list Interval) :
  let own := own_map (b_inner (partition c S)) in
  grouped (filter (stays c) S) own
  /\ ascending_keys own
  /\ Permutation (own_items own) (filter (stays c) S).
Proof.
  cbv zeta. pose proof (partition_inner_grouped c S) as Hg. split; [ | split ].
  - apply own_map_grouped. exact Hg.
  - apply own_map_ascending. apply Hg.
  - rewrite own_map_perm by apply Hg. rewrite partition_inner.
    rewrite fold_inner_append_perm. reflexivity.
Qed.

(** ** Induction on a construction call that returns *)

Lemma IntervalNode_returns_ind (P : list Interval -> node_ref -> Prop) :
  P [] (Node [] None PyNone PyNone) ->
  (forall (i : Interval) (rest : list Interval) (l r : node_ref),
      let S := i :: rest in
      let c := get_center S in
      (filter (goes_left c) S = [] /\ l = PyNone
       \/ filter (goes_left c) S <> [] /\ P (filter (goes_left c) S) l) ->
      (filter (goes_right c) S = [] /\ r = PyNone
       \/ filter (goes_right c) S <> [] /\ P (filter (goes_right c) S) r) ->
      P S (Node (own_map (b_inner (partition c S))) (Some c) l r)) ->
  forall (limit : nat) (S : list Interval) (t : node_ref),
    IntervalNode limit S = Ok t -> P S t.
Proof.
  intros Hempty Hnode.
  induction limit as [| limit IH]; intros S t H; [ discriminate | ].
  destruct S as [| i rest].
  - cbn in H. injection H as <-. exact Hempty.
  - rewrite IntervalNode_step in H. cbv zeta in H.
    rewrite partition_left, partition_right in H.
    set (c := get_center (i :: rest)) in *.
    destruct (match filter (goes_left c) (i :: rest) with
              | [] => Ok PyNone
              | _ :: _ => IntervalNode limit (filter (goes_left c) (i :: rest))
              end) as [l | e] eqn:El; [ | discriminate ].
    destruct (match filter (goes_right c) (i :: rest) with
              | [] => Ok PyNone
              | _ :: _ => IntervalNode limit (filter (goes_right c) (i :: rest))
              end) as [r | e] eqn:Er; [ | discriminate ].
    cbn [bind] in H. injection H as <-.
    assert (Hl : filter (goes_left c) (i :: rest) = [] /\ l = PyNone
                 \/ filter (goes_left c) (i :: rest) <> []
                    /\ P (filter (goes_left c) (i :: rest)) l).
    { destruct (filter (goes_left c) (i :: rest)) as [| x xs].
      - left. injection El as <-. split; reflexivity.
      - right. split; [ discriminate | apply IH; exact El ]. }
    assert (Hr : filter (goes_right c) (i :: rest) = [] /\ r = PyNone
                 \/ filter (goes_right c) (i :: rest) <> []
                    /\ P (filter (goes_right c) (i :: rest)) r).
    { destruct (filter (goes_right c) (i :: rest)) as [| x xs].
      - left. injection Er as <-. split; reflexivity.
      - right. split; [ discriminate | apply IH; exact Er ]. }
    exact (Hnode i rest l r Hl Hr).
Qed.

Lemma IntervalNode_inorder_perm (limit : nat) (S : list Interval) (t : node_ref) :
  IntervalNode limit S = Ok t -> Permutation (inorder t) S.
Proof.
  revert limit S t. apply IntervalNode_returns_ind.
  - constructor.
  - intros i rest l r S c Hl Hr. cbn [inorder].
    rewrite <- (three_filters_perm c S) at 2.
    destruct (own_of_partition c S) as (_ & _ & Hown).
    apply Permutation_app; [ | apply Permutation_app; [ exact Hown | ] ].
    + destruct Hl as [[-> ->] | [_ Hl]]; [ reflexivity | exact Hl ].
    + destruct Hr as [[-> ->] | [_ Hr]]; [ reflexivity | exact Hr ].
Qed.

Lemma IntervalNode_children (limit : nat) (S : list Interval) (t : node_ref) :
  IntervalNode limit S = Ok t ->
  match t with
  | PyNone => False
  | Node own center l r =>
      match S with
      | [] => own = [] /\ center = None /\ l = PyNone /\ r = PyNone
      | _ :: _ =>
          let c := get_center S in
          center = Some c
          /\ own = own_map (b_inner (partition c S))
          /\ Permutation (inorder l) (filter (goes_left c) S)
          /\ Permutation (inorder r) (filter (goes_right c) S)
      end
  end.
Proof.
  destruct limit as [| limit]; [ discriminate | ].
  destruct S as [| i rest]; intros H.
  - cbn in H. injection H as <-. repeat split.
  - rewrite IntervalNode_step in H. cbv zeta in H.
    rewrite partition_left, partition_right in H.
    set (c := get_center (i :: rest)) in *.
    destruct (match filter (goes_left c) (i :: rest) with
              | [] => Ok PyNone
              | _ :: _ => IntervalNode limit (filter (goes_left c) (i :: rest))
              end) as [l | e] eqn:El; [ | discriminate ].
    destruct (match filter (goes_right c) (i :: rest) with
              | [] => Ok PyNone
              | _ :: _ => IntervalNode limit (filter (goes_right c) (i :: rest))
              end) as [r | e] eqn:Er; [ | discriminate ].
    cbn [bind] in H. injection H as <-.
    assert (Hl : Permutation (inorder l) (filter (goes_left c) (i :: rest))).
    { destruct (filter (goes_left c) (i :: rest)) as [| x xs].
      - injection El as <-. reflexivity.
      - apply (IntervalNode_inorder_perm _ _ _ El). }
    assert (Hr : Permutation (inorder r) (filter (goes_right c) (i :: rest))).
    { destruct (filter (goes_right c) (i :: rest)) as [| x xs].
      - injection Er as <-. reflexivity.
      - apply (IntervalNode_inorder_perm _ _ _ Er). }
    cbv zeta. split; [ reflexivity | split; [ reflexivity | split; assumption ] ].
Qed.



(** ** The invariants of a constructed tree *)

Lemma grouped_entry (L : list Interval) (d : odict) (k : Interval) (items : list Interval) :
  grouped L d -> In (k, items) d ->
  In k items /\ (forall i, In i items -> IntervalOps.eq k i = true)
  /\ items = group_of L k.
Proof.
  intros (_ & Hentries & _) Hin. destruct (Hentries _ _ Hin) as [HkL ->].
  unfold group_of. split; [ | split; [ | reflexivity ] ].
  - apply filter_In. split; [ exact HkL | apply key_eq_refl ].
  - intros i Hi. apply filter_In in Hi. apply Hi.
Qed.

Lemma IntervalNode_well_formed_perm (limit : nat) (S : list Interval) (t : node_ref) :
  IntervalNode limit S = Ok t -> well_formed t /\ Permutation (inorder t) S.
Proof.
  revert limit S t.
  apply (IntervalNode_returns_ind (fun S t => well_formed t /\ Permutation (inorder t) S)).
  - split; [ | constructor ]. cbn [well_formed].
    split; [ constructor | ]. split; [ constructor | ].
    split; [ intros k items [] | ]. conjuncts; reflexivity || exact I.
  - intros i rest l r S c Hl Hr.
    destruct (own_of_partition c S) as (Hg & Hasc & Hperm).
    assert (HL : well_formed l /\ Permutation (inorder l) (filter (goes_left c) S)).
    { destruct Hl as [[-> ->] | [_ Hl]]; [ split; [ exact I | reflexivity ] | exact Hl ]. }
    assert (HR : well_formed r /\ Permutation (inorder r) (filter (goes_right c) S)).
    { destruct Hr as [[-> ->] | [_ Hr]]; [ split; [ exact I | reflexivity ] | exact Hr ]. }
    destruct HL as [HLw HLp]. destruct HR as [HRw HRp]. split.
    + cbn [well_formed]. conjuncts.
      * apply Hg.
      * exact Hasc.
      * intros k items Hin. destruct (grouped_entry _ _ k items Hg Hin) as (H1 & H2 & _).
        split; assumption.
      * intros x Hx. apply (Permutation_in _ Hperm) in Hx. apply filter_In in Hx. apply Hx.
      * intros x Hx. apply (Permutation_in _ HLp) in Hx. apply filter_In in Hx. apply Hx.
      * intros x Hx. apply (Permutation_in _ HRp) in Hx. apply filter_In in Hx. apply Hx.
      * exact HLw.
      * exact HRw.
    + cbn [inorder]. rewrite <- (three_filters_perm c S) at 2.
      apply Permutation_app; [ exact HLp | apply Permutation_app; assumption ].
Qed.

(** ** [==] between the nodes of a constructed tree *)

Lemma list_eq_refl (l : list Interval) : list_eq l l = true.
Proof.
  induction l as [| x l IH]; cbn [list_eq]; [ reflexivity | ].
  rewrite key_eq_refl. exact IH.
Qed.

Lemma odict_eq_refl (d : odict) : distinct_keys d -> odict_eq d d = true.
Proof.
  intros Hd. unfold odict_eq.
  rewrite Nat.eqb_refl, list_eq_refl, andb_true_r. cbn [andb].
  apply forallb_forall. intros [k items] Hin. cbn [fst snd].
  rewrite (odict_get_In _ _ _ Hd Hin). apply list_eq_refl.
Qed.

(** A node is equal to itself, and the comparison raises nothing. *)
Lemma node_eq_refl (n : node_ref) : well_formed n -> node_eq n n = Ok true.
Proof.
  induction n as [| own center l IHl r IHr]; intros Hwf; cbn [node_eq].
  - reflexivity.
  - cbn [well_formed] in Hwf. destruct Hwf as (Hd & _ & _ & _ & Hl & Hr).
    rewrite (odict_eq_refl _ Hd). rewrite (IHl Hl). cbn [bind]. apply IHr. exact Hr.
Qed.

Lemma odict_get_Some (d : odict) (k : Interval) (items : list Interval) :
  odict_get d k = Some items ->
  exists k', In (k', items) d /\ IntervalOps.eq k' k = true.
Proof.
  induction d as [| [k0 items0] rest IH]; cbn [odict_get]; [ discriminate | ].
  destruct (IntervalOps.eq k0 k) eqn:E.
  - intros H. injection H as ->. exists k0. split; [ left; reflexivity | exact E ].
  - intros H. destruct (IH H) as (k' & Hin & Hk'). exists k'.
    split; [ right; exact Hin | exact Hk' ].
Qed.

Lemma odict_eq_shares_key (a b : odict) (k : Interval) (items : list Interval) :
  odict_eq a b = true -> In (k, items) a ->
  exists k' items', In (k', items') b /\ IntervalOps.eq k' k = true.
Proof.
  unfold odict_eq. rewrite !andb_true_iff. intros [[_ Hall] _] Hin.
  rewrite forallb_forall in Hall. specialize (Hall _ Hin). cbn [fst snd] in Hall.
  destruct (odict_get b k) as [items' |] eqn:E; [ | discriminate ].
  destruct (odict_get_Some _ _ _ E) as (k' & Hin' & Hk'). exists k', items'.
  split; assumption.
Qed.

Lemma in_own_items (d : odict) (k i : Interval) (items : list Interval) :
  In (k, items) d -> In i items -> In i (own_items d).
Proof.
  intros Hin Hi. unfold own_items. apply in_flat_map. exists (k, items).
  split; assumption.
Qed.

Lemma key_in_inorder (own : odict) (center : option Z) (l r : node_ref)
      (k : Interval) (items : list Interval) :
  well_formed (Node own center l r) -> In (k, items) own ->
  In k (inorder (Node own center l r)).
Proof.
  intros (_ & _ & Hentries & _) Hin. cbn [inorder].
  apply in_or_app. right. apply in_or_app. left.
  apply (in_own_items _ k _ items Hin). apply (Hentries _ _ Hin).
Qed.

Lemma truthy_Node (n : node_ref) :
  truthy n = true ->
  exists kv own center l r, n = Node (kv :: own) center l r.
Proof.
  destruct n as [| [| kv own] center l r]; cbn; try discriminate.
  intros _. exists kv, own, center, l, r. reflexivity.
Qed.

(** The two children of a node are never equal: the keys of the left child
    end before the center, those of the right child do not. *)
Lemma siblings_differ (own : odict) (c : Z) (l r : node_ref) :
  well_formed (Node own (Some c) l r) ->
  truthy l = true -> r <> PyNone ->
  node_eq l r = Ok false.
Proof.
  intros Hwf Hl Hr.
  destruct (truthy_Node _ Hl) as ([k items] & lown & lc & ll & lr & ->).
  destruct r as [| rown rc rl rr]; [ congruence | ].
  cbn [node_eq].
  destruct (odict_eq ((k, items) :: lown) rown) eqn:E; [ exfalso | reflexivity ].
  destruct (odict_eq_shares_key _ _ k items E (or_introl eq_refl))
    as (k' & items' & Hin' & Hk').
  cbn [well_formed] in Hwf.
  destruct Hwf as (_ & _ & _ & (_ & Hleft & Hright) & Hwl & Hwr).
  assert (H1 : goes_left c k = true).
  { apply Hleft. apply (key_in_inorder _ _ _ _ k items Hwl). left. reflexivity. }
  assert (H2 : goes_right c k' = true).
  { apply Hright. apply (key_in_inorder _ _ _ _ k' items' Hwr). exact Hin'. }
  apply key_eq_spec in Hk'. destruct Hk' as [_ He].
  unfold goes_left in H1. unfold goes_right in H2. rewrite He, H1 in H2.
  discriminate.
Qed.

(** ** The iterator of _tree.py *)

Lemma produced_all_app (A : Type) (a b : list A) (o : loop_outcome A) :
  produced_all (a ++ b) o = produced_all a (produced_all b o).
Proof. unfold produced_all. apply fold_right_app. Qed.

(** While the queue is not empty, [__next__] pops it. *)
Lemma drain_queue (root : node_ref) (nd : option path) (q : list Interval) (k : nat) :
  for_loop It.next (length q + k) (It.mk true root nd (Some q))
  = produced_all q (for_loop It.next k (It.mk true root nd (Some []))).
Proof.
  induction q as [| x q IH]; [ reflexivity | ].
  cbn [length Nat.add for_loop produced_all fold_right].
  unfold It.next at 1, It.has_next, It.advance. cbn. f_equal. exact IH.
Qed.

Lemma enter_and_drain (root : node_ref) (st : It.t) (m : path)
      (x : Interval) (q : list Interval) (k : nat) :
  enters root st m ->
  node_items (node_at root m) = x :: q ->
  for_loop It.next (length (x :: q) + k) st
  = produced_all (x :: q) (for_loop It.next k (drained root m)).
Proof.
  intros Henter Hitems.
  cbn [length Nat.add for_loop produced_all fold_right].
  rewrite (Henter x q Hitems). f_equal. apply drain_queue.
Qed.

Lemma node_to_queue_items (n : node_ref) (x : Interval) (q : list Interval) :
  node_items n = x :: q -> It.node_to_queue n = x :: q.
Proof.
  destruct n as [| [| kv own] center l r]; cbn [node_items own_items flat_map];
    try discriminate.
  intros H. unfold It.node_to_queue. cbn [truthy node_len length Nat.eqb negb].
  exact H.
Qed.

(** With an empty queue, [__next__] moves to the successor. *)
Lemma advance_enters (root : node_ref) (p m : path) :
  It.successor root (Some p) = Ok (Some m) ->
  enters root (drained root p) m.
Proof.
  intros Hsucc x q Hitems.
  unfold It.next, It.has_next, It.advance, drained.
  cbn [It.initialized It.queue It.root It.node It.queue_truthy length Nat.eqb negb].
  rewrite Hsucc. cbn [It.node_ref_of].
  rewrite (node_to_queue_items _ _ _ Hitems). reflexivity.
Qed.

(** The first call of [__next__] moves to the minimum of the root. *)
Lemma init_enters (root : node_ref) :
  truthy root = true ->
  enters root (It.init root) (minimum root []).
Proof.
  intros Htruthy x q Hitems.
  unfold It.next, It.has_next, It.init.
  cbn [It.initialized It.root negb]. rewrite Htruthy.
  rewrite (node_to_queue_items _ _ _ Hitems).
  unfold It.advance. reflexivity.
Qed.

Lemma climb_right (root : node_ref) (p : path) :
  truthy (node_at root p) = true ->
  well_formed (child GoRight (node_at root p)) ->
  It.climb root (GoRight :: p) = It.climb root p.
Proof.
  intros Htruthy Hwf. cbn [It.climb node_at]. rewrite Htruthy.
  rewrite (node_eq_refl _ Hwf). reflexivity.
Qed.

Lemma climb_left (root : node_ref) (p : path) (own : odict) (c : Z) (l r : node_ref) :
  node_at root p = Node own (Some c) l r ->
  well_formed (Node own (Some c) l r) ->
  truthy (Node own (Some c) l r) = true ->
  truthy l = true -> r <> PyNone ->
  It.climb root (GoLeft :: p) = Ok (Some p).
Proof.
  intros Hat Hwf Hn Hl Hr. cbn [It.climb node_at]. rewrite Hat, Hn. cbn [child].
  rewrite (siblings_differ _ _ _ _ Hwf Hl Hr). reflexivity.
Qed.

Lemma every_node_Node (f : node_ref -> bool) (own : odict) (center : option Z)
      (l r : node_ref) :
  every_node f (Node own center l r) = true ->
  f (Node own center l r) = true
  /\ every_node f l = true /\ every_node f r = true.
Proof.
  cbn [every_node]. rewrite !andb_true_iff. tauto.
Qed.

Lemma every_truthy (n : node_ref) :
  n <> PyNone -> every_node truthy n = true -> truthy n = true.
Proof.
  destruct n as [| own center l r]; [ congruence | ].
  intros _ H. apply (every_node_Node _ _ _ _ _ H).
Qed.

Lemma truthy_not_None (n : node_ref) : truthy n = true -> n <> PyNone.
Proof. destruct n; [ discriminate | discriminate ]. Qed.

Lemma well_formed_children (own : odict) (center : option Z) (l r : node_ref) :
  well_formed (Node own center l r) -> well_formed l /\ well_formed r.
Proof. cbn [well_formed]. tauto. Qed.

(** From the maximum of a subtree, the climb passes the right links back to
    the root of the subtree and goes on from there. *)
Lemma climb_maximum (root : node_ref) (n : node_ref) :
  forall p, node_at root p = n ->
            well_formed n -> every_node truthy n = true ->
            It.climb root (maximum n p) = It.climb root p.
Proof.
  induction n as [| own center l IHl r IHr]; intros p Hat Hwf Hall; [ reflexivity | ].
  cbn [maximum]. destruct (truthy r) eqn:Hr; [ | reflexivity ].
  destruct (every_node_Node _ _ _ _ _ Hall) as (Hn & _ & Hallr).
  destruct (well_formed_children _ _ _ _ Hwf) as [_ Hwr].
  rewrite IHr; [ | cbn [node_at]; rewrite Hat; reflexivity | exact Hwr | exact Hallr ].
  apply climb_right; rewrite Hat; [ exact Hn | exact Hwr ].
Qed.

Lemma maximum_no_right (root : node_ref) (n : node_ref) :
  forall p, node_at root p = n ->
            truthy (child GoRight (node_at root (maximum n p))) = false.
Proof.
  induction n as [| own center l IHl r IHr]; intros p Hat; cbn [maximum].
  - rewrite Hat. reflexivity.
  - destruct (truthy r) eqn:Hr.
    + apply IHr. cbn [node_at]. rewrite Hat. reflexivity.
    + rewrite Hat. exact Hr.
Qed.

Lemma successor_of_maximum (root : node_ref) (n : node_ref) (p : path) :
  node_at root p = n -> well_formed n -> every_node truthy n = true ->
  It.successor root (Some (maximum n p)) = It.climb root p.
Proof.
  intros Hat Hwf Hall. unfold It.successor.
  rewrite (maximum_no_right root n p Hat).
  apply climb_maximum; assumption.
Qed.

Lemma truthy_items (n : node_ref) :
  well_formed n -> truthy n = true -> exists x q, node_items n = x :: q.
Proof.
  intros Hwf Hn.
  destruct (truthy_Node _ Hn) as ([k items] & own & center & l & r & ->).
  cbn [well_formed] in Hwf. destruct Hwf as (_ & _ & Hentries & _).
  destruct (Hentries k items (or_introl eq_refl)) as [Hk _].
  destruct items as [| x items]; [ destruct Hk | ].
  cbn [node_items own_items flat_map snd app]. eauto.
Qed.

(** The walk over the subtree found at [p]: entered at its minimum, the loop
    produces the intervals of the subtree node by node and is then on its
    maximum with an empty queue. *)
Lemma traverse (root : node_ref) (n : node_ref) :
  forall p,
    node_at root p = n -> n <> PyNone -> well_formed n ->
    every_node truthy n = true -> every_node left_has_sibling n = true ->
    forall st k,
      enters root st (minimum n p) ->
      for_loop It.next (length (inorder n) + k) st
      = produced_all (inorder n) (for_loop It.next k (drained root (maximum n p))).
Proof.
  induction n as [| own center l IHl r IHr];
    intros p Hat Hne Hwf Htr Hsib st k Henter; [ congruence | ].
  destruct (every_node_Node _ _ _ _ _ Htr) as (Hn & Htl & Htr').
  destruct (every_node_Node _ _ _ _ _ Hsib) as (Hsn & Hsl & Hsr).
  destruct (well_formed_children _ _ _ _ Hwf) as [Hwl Hwr].
  destruct (truthy_items _ Hwf Hn) as (x & q & Hitems).
  assert (Hc : exists c, center = Some c).
  { destruct center as [c |]; [ exists c; reflexivity | ].
    cbn [well_formed] in Hwf. destruct Hwf as (_ & _ & _ & (Hown & _) & _).
    subst own. discriminate Hn. }
  destruct Hc as [c ->].
  cbn [inorder]. rewrite !length_app, <- !Nat.add_assoc, !produced_all_app.
  assert (Hmid : forall s,
             enters root s p ->
             for_loop It.next (length (own_items own) + (length (inorder r) + k)) s
             = produced_all (own_items own)
                 (produced_all (inorder r)
                    (for_loop It.next k
                       (drained root (maximum (Node own (Some c) l r) p))))).
  { intros s Hs.
    assert (Hitems' : node_items (node_at root p) = x :: q)
      by (rewrite Hat; exact Hitems).
    cbn [node_items] in Hitems. rewrite Hitems.
    rewrite (enter_and_drain root s p x q _ Hs Hitems'). f_equal.
    cbn [maximum]. destruct r as [| rown rc rl rr]; [ reflexivity | ].
    assert (Hr : truthy (Node rown rc rl rr) = true)
      by (apply every_truthy; [ discriminate | exact Htr' ]).
    rewrite Hr. apply IHr; try assumption.
    - cbn [node_at]. rewrite Hat. reflexivity.
    - discriminate.
    - apply advance_enters. unfold It.successor. rewrite Hat. cbn [child].
      rewrite Hr. reflexivity. }
  destruct l as [| lown lc ll lr].
  - cbn [inorder length Nat.add produced_all fold_right]. apply Hmid. exact Henter.
  - assert (Hl : truthy (Node lown lc ll lr) = true)
      by (apply every_truthy; [ discriminate | exact Htl ]).
    cbn [minimum] in Henter. rewrite Hl in Henter.
    rewrite (IHl (GoLeft :: p)); try assumption.
    + f_equal. apply Hmid. apply advance_enters.
      rewrite successor_of_maximum; try assumption.
      * apply (climb_left root p own c (Node lown lc ll lr) r); try assumption.
        destruct r; [ discriminate Hsn | discriminate ].
      * cbn [node_at]. rewrite Hat. reflexivity.
    + cbn [node_at]. rewrite Hat. reflexivity.
    + discriminate.
Qed.

Lemma loop_ends (root : node_ref) (k : nat) :
  well_formed root -> every_node truthy root = true ->
  for_loop It.next (S k) (drained root (maximum root [])) = Finished [].
Proof.
  intros Hwf Htr. cbn [for_loop].
  unfold It.next, It.has_next, It.advance, drained.
  cbn [It.initialized It.queue It.root It.node It.queue_truthy length Nat.eqb negb].
  rewrite (successor_of_maximum root root [] eq_refl Hwf Htr). reflexivity.
Qed.

(** On a tree whose nodes all have an own interval and whose left children
    all have a sibling, the loop over the iterator ends after one call more
    than there are intervals, and has produced the intervals node by node. *)
Lemma iterator_walks_inorder (root : node_ref) (k : nat) :
  root <> PyNone -> well_formed root ->
  every_node truthy root = true -> every_node left_has_sibling root = true ->
  for_loop It.next (length (inorder root) + S k) (It.init root)
  = Finished (inorder root).
Proof.
  intros Hne Hwf Htr Hsib.
  rewrite (traverse root root [] eq_refl Hne Hwf Htr Hsib).
  - rewrite loop_ends by assumption.
    unfold produced_all. induction (inorder root) as [| x l IH]; [ reflexivity | ].
    cbn [fold_right]. rewrite IH. reflexivity.
  - apply init_enters. apply every_truthy; assumption.
Qed.

(** ** The groups of a constructed tree *)

Lemma inorder_entries (n : node_ref) : inorder n = own_items (entries n).
Proof.
  unfold own_items.
  induction n as [| own center l IHl r IHr]; cbn [inorder entries]; [ reflexivity | ].
  rewrite !flat_map_app, IHl, IHr. reflexivity.
Qed.

Lemma group_of_filter (g : Interval -> bool) (S : list Interval) (k : Interval) :
  (forall i, IntervalOps.eq k i = true -> g i = g k) -> g k = true ->
  group_of (filter g S) k = group_of S k.
Proof.
  intros Hg Hk. unfold group_of.
  induction S as [| a S IH]; cbn [filter]; [ reflexivity | ].
  destruct (IntervalOps.eq k a) eqn:E.
  - rewrite (Hg a E), Hk. cbn [filter]. rewrite E, IH. reflexivity.
  - destruct (g a); cbn [filter]; [ rewrite E | ]; exact IH.
Qed.

Lemma bucket_of_bounds (c : Z) (k i : Interval) :
  IntervalOps.eq k i = true ->
  goes_left c i = goes_left c k
  /\ stays c i = stays c k
  /\ goes_right c i = goes_right c k.
Proof.
  intros H. apply key_eq_spec in H. destruct H as [Hb He].
  unfold goes_left, stays, goes_right. rewrite Hb, He. repeat split.
Qed.

(** Every entry of every node holds all the intervals of the input that have
    the bounds of its key, in the order of the input. *)
Lemma IntervalNode_groups (limit : nat) (S : list Interval) (t : node_ref) :
  IntervalNode limit S = Ok t ->
  forall k items, In (k, items) (entries t) -> In k S /\ items = group_of S k.
Proof.
  revert limit S t.
  apply (IntervalNode_returns_ind
           (fun S t => forall k items, In (k, items) (entries t) ->
                                       In k S /\ items = group_of S k)).
  - intros k items [].
  - intros i rest l r S c Hl Hr k items Hin. cbn [entries] in Hin.
    destruct (own_of_partition c S) as ((_ & Hentries & _) & _ & _).
    apply in_app_or in Hin. destruct Hin as [Hin | Hin];
      [ | apply in_app_or in Hin; destruct Hin as [Hin | Hin] ].
    + destruct Hl as [[_ ->] | [_ Hl]]; [ destruct Hin | ].
      destruct (Hl k items Hin) as [Hk ->]. apply filter_In in Hk.
      split; [ apply Hk | ]. apply group_of_filter; [ | apply Hk ].
      intros x Hx. apply (bucket_of_bounds c k x Hx).
    + destruct (Hentries k items Hin) as [Hk ->]. apply filter_In in Hk.
      split; [ apply Hk | ]. apply group_of_filter; [ | apply Hk ].
      intros x Hx. apply (bucket_of_bounds c k x Hx).
    + destruct Hr as [[_ ->] | [_ Hr]]; [ destruct Hin | ].
      destruct (Hr k items Hin) as [Hk ->]. apply filter_In in Hk.
      split; [ apply Hk | ]. apply group_of_filter; [ | apply Hk ].
      intros x Hx. apply (bucket_of_bounds c k x Hx).
Qed.

(** ** Forward iteration *)

(** C4, counterexample.  In the tree of (0,40), (5,10), (30,50) every node has
    an own interval and both children of the root exist, so the iterator
    walks all three nodes; it starts at the leftmost node and produces (5,10)
    before (0,40), which is not the order of (begin, end). *)
Lemma forward_iteration_is_not_sorted :
  let S := [SimpleInterval 0 40; SimpleInterval 5 10; SimpleInterval 30 50] in
  let tree := tree_of S in
  new_tree default_limit S = Ok tree
  /\ every_node truthy (_head tree) = true
  /\ every_node left_has_sibling (_head tree) = true
  /\ sorted S = [SimpleInterval 0 40; SimpleInterval 5 10; SimpleInterval 30 50]
  /\ Tree_py.to_list default_limit 4 tree
     = Finished [SimpleInterval 5 10; SimpleInterval 0 40; SimpleInterval 30 50]
  /\ Tree_py.to_list default_limit 4 tree <> Finished (sorted S).
Proof.
  cbv zeta. conjuncts; try (vm_compute; reflexivity). vm_compute. discriminate.
Qed.

(** C4, amended.  For a tree built from S in which every node holds an own
    interval and every node with a left child also has a right child, the
    loop over the forward iterator ends (after one call more than there are
    intervals) and its full output is the intervals node by node, in-order:
    left subtree, the node's own groups, right subtree.  The output is a
    permutation of S; within a node the groups come in ascending order of
    (begin, end), and each group holds all the intervals of S with the bounds
    of its key, in the order of S. *)
Theorem forward_iteration_is_inorder :
  forall (limit : nat) (S : list Interval) (tree : IntervalTree) (steps : nat),
    new_tree limit S = Ok tree ->
    every_node truthy (_head tree) = true ->
    every_node left_has_sibling (_head tree) = true ->
    (length S < steps)%nat ->
    Tree_py.to_list limit steps tree = Finished (inorder (_head tree))
    /\ Permutation (inorder (_head tree)) S
    /\ inorder (_head tree) = own_items (entries (_head tree))
    /\ well_formed (_head tree)
    /\ forall k items, In (k, items) (entries (_head tree)) -> items = group_of S k.
Proof.
  intros limit S tree steps Hnew Htr Hsib Hsteps.
  unfold new_tree in Hnew.
  destruct (IntervalNode limit S) as [head | e] eqn:Hhead; [ | discriminate ].
  cbn [bind] in Hnew. injection Hnew as <-. cbn [_head] in *.
  destruct (IntervalNode_well_formed_perm _ _ _ Hhead) as [Hwf Hperm].
  conjuncts.
  - unfold Tree_py.to_list, Tree_py.__iter__, and_then, build. cbn [_in_sync negb _head].
    assert (Hne : head <> PyNone).
    { pose proof (IntervalNode_children _ _ _ Hhead) as Hc.
      destruct head; [ destruct Hc | discriminate ]. }
    replace steps with (length (inorder head) + Datatypes.S (steps - length S - 1))%nat
      by (rewrite (Permutation_length Hperm); lia).
    apply iterator_walks_inorder; assumption.
  - exact Hperm.
  - apply inorder_entries.
  - exact Hwf.
  - intros k items Hin. apply (IntervalNode_groups _ _ _ Hhead k items Hin).
Qed.

Lemma forward_iteration_is_inorder_witness :
  let S := make_intervals 0 3 9 in
  Tree_py.to_list default_limit 10 (tree_of S) = Finished (inorder (_head (tree_of S)))
  /\ Permutation (inorder (_head (tree_of S))) S.
Proof.
  cbv zeta.
  pose proof (forward_iteration_is_inorder default_limit (make_intervals 0 3 9)
                (tree_of (make_intervals 0 3 9)) 10
                ltac:(vm_compute; reflexivity)
                ltac:(vm_compute; reflexivity)
                ltac:(vm_compute; reflexivity)
                ltac:(vm_compute; lia)) as (H1 & H2 & _).
  split; assumption.
Defined.

(** ** The queries on a tree whose nodes all have an own interval

    When no node has an empty own map, the truth value of a child is its
    presence, and the two queries return exactly the stored intervals that
    satisfy their predicate. *)

Lemma Qleb_true (x y : Q) : Qleb x y = true <-> x <= y.
Proof. apply Qle_bool_iff. Qed.

Lemma Qleb_false (x y : Q) : Qleb x y = false <-> y < x.
Proof.
  unfold Qleb. split.
  - intros H. apply Qnot_le_lt. intros Hle. apply Qle_bool_iff in Hle. congruence.
  - intros H. destruct (Qle_bool x y) eqn:E; [ | reflexivity ].
    apply Qle_bool_iff in E. exfalso. apply (Qlt_not_le _ _ H E).
Qed.

Lemma Qltb_true (x y : Q) : Qltb x y = true <-> x < y.
Proof.
  unfold Qltb. rewrite negb_true_iff. apply Qleb_false.
Qed.

Lemma Qltb_false (x y : Q) : Qltb x y = false <-> y <= x.
Proof.
  unfold Qltb. rewrite negb_false_iff. apply Qle_bool_iff.
Qed.

Lemma contains_bounds (k i : Interval) (p : Q) :
  IntervalOps.eq k i = true -> IntervalOps.contains i p = IntervalOps.contains k p.
Proof.
  intros H. apply key_eq_spec in H. destruct H as [Hb He].
  unfold IntervalOps.contains. rewrite Hb, He. reflexivity.
Qed.

Lemma intersects_bounds (k i : Interval) (b e : Q) :
  IntervalOps.eq k i = true ->
  IntervalOps.intersects i b e = IntervalOps.intersects k b e.
Proof.
  intros H. apply key_eq_spec in H. destruct H as [Hb He].
  unfold IntervalOps.intersects. rewrite Hb, He. reflexivity.
Qed.

Lemma filter_all (f : Interval -> bool) (L : list Interval) :
  (forall i, In i L -> f i = true) -> filter f L = L.
Proof.
  induction L as [| a L IH]; intros H; cbn [filter]; [ reflexivity | ].
  rewrite (H a (or_introl eq_refl)). f_equal. apply IH.
  intros i Hi. apply H. right. exact Hi.
Qed.


(** A predicate on the bounds that fails on a key, and on every key after it
    fails too, selects nothing in the groups from that key on. *)
Lemma scan_tail_empty (f : Interval -> bool) (k : Interval) (items : list Interval)
      (rest : odict) :
  (forall k' items', In (k', items') ((k, items) :: rest) ->
                     forall i, In i items' -> f i = f k') ->
  f k = false ->
  (forall k', In k' (keys rest) -> f k' = false) ->
  filter f (own_items ((k, items) :: rest)) = [].
Proof.
  intros Hgrp Hk Hrest. apply filter_none. intros i Hi.
  unfold own_items in Hi. apply in_flat_map in Hi.
  destruct Hi as ([k' items'] & Hin & Hi). cbn [snd] in Hi.
  rewrite (Hgrp k' items' Hin i Hi).
  destruct Hin as [Heq | Hin].
  - injection Heq as <- <-. exact Hk.
  - apply Hrest. apply in_keys. exists items'. exact Hin.
Qed.

Lemma search_own_filter (own : odict) (p : Q) :
  ascending_keys own ->
  (forall k items, In (k, items) own ->
                   forall i, In i items -> IntervalOps.eq k i = true) ->
  search_own own p = filter (fun i => IntervalOps.contains i p) (own_items own).
Proof.
  unfold ascending_keys.
  induction own as [| [k items] rest IH]; intros Hsort Hgrp; [ reflexivity | ].
  cbn [keys map fst] in Hsort. apply StronglySorted_inv in Hsort.
  destruct Hsort as [Hsort Hall]. rewrite Forall_forall in Hall.
  assert (Hgrp' : forall k' items', In (k', items') ((k, items) :: rest) ->
                    forall i, In i items' ->
                              IntervalOps.contains i p = IntervalOps.contains k' p).
  { intros k' items' Hin i Hi. apply contains_bounds. apply (Hgrp k' items' Hin i Hi). }
  assert (IH' : search_own rest p
                = filter (fun i => IntervalOps.contains i p) (own_items rest)).
  { apply IH; [ exact Hsort | ]. intros k' items' Hin. apply Hgrp. right. exact Hin. }
  cbn [search_own].
  destruct (IntervalOps.contains k p) eqn:Hk.
  - unfold own_items. cbn [flat_map snd]. rewrite filter_app. fold (own_items rest).
    rewrite <- IH'. f_equal. symmetry. apply filter_all.
    intros i Hi. rewrite (Hgrp' k items (or_introl eq_refl) i Hi). exact Hk.
  - destruct (Qltb p (inject_Z (begin k))) eqn:Hp.
    + symmetry.
      apply (scan_tail_empty (fun i => IntervalOps.contains i p) k items rest Hgrp' Hk).
      intros k' Hk'. specialize (Hall k' Hk'). apply lt_spec in Hall.
      apply Qltb_true in Hp.
      unfold IntervalOps.contains. apply andb_false_iff. right. apply Qltb_false.
      assert (Hz : (begin k <= begin k')%Z) by lia.
      rewrite Zle_Qle in Hz. lra.
    + unfold own_items. cbn [flat_map snd]. rewrite filter_app. fold (own_items rest).
      rewrite <- IH'.
      rewrite filter_none; [ reflexivity | ].
      intros i Hi. rewrite (Hgrp' k items (or_introl eq_refl) i Hi). exact Hk.
Qed.

Lemma overlaps_own_filter (own : odict) (b e : Q) :
  ascending_keys own ->
  (forall k items, In (k, items) own ->
                   forall i, In i items -> IntervalOps.eq k i = true) ->
  overlaps_own own b e
  = filter (fun i => IntervalOps.intersects i b e) (own_items own).
Proof.
  unfold ascending_keys.
  induction own as [| [k items] rest IH]; intros Hsort Hgrp; [ reflexivity | ].
  cbn [keys map fst] in Hsort. apply StronglySorted_inv in Hsort.
  destruct Hsort as [Hsort Hall]. rewrite Forall_forall in Hall.
  assert (Hgrp' : forall k' items', In (k', items') ((k, items) :: rest) ->
                    forall i, In i items' ->
                              IntervalOps.intersects i b e
                              = IntervalOps.intersects k' b e).
  { intros k' items' Hin i Hi. apply intersects_bounds. apply (Hgrp k' items' Hin i Hi). }
  assert (IH' : overlaps_own rest b e
                = filter (fun i => IntervalOps.intersects i b e) (own_items rest)).
  { apply IH; [ exact Hsort | ]. intros k' items' Hin. apply Hgrp. right. exact Hin. }
  cbn [overlaps_own].
  destruct (IntervalOps.intersects k b e) eqn:Hk.
  - unfold own_items. cbn [flat_map snd]. rewrite filter_app. fold (own_items rest).
    rewrite <- IH'. f_equal. symmetry. apply filter_all.
    intros i Hi. rewrite (Hgrp' k items (or_introl eq_refl) i Hi). exact Hk.
  - destruct (Qleb e (inject_Z (begin k))) eqn:Hp.
    + symmetry.
      apply (scan_tail_empty (fun i => IntervalOps.intersects i b e) k items rest
               Hgrp' Hk).
      intros k' Hk'. specialize (Hall k' Hk'). apply lt_spec in Hall.
      apply Qleb_true in Hp.
      unfold IntervalOps.intersects. apply andb_false_iff. left. apply Qltb_false.
      assert (Hz : (begin k <= begin k')%Z) by lia.
      rewrite Zle_Qle in Hz. lra.
    + unfold own_items. cbn [flat_map snd]. rewrite filter_app. fold (own_items rest).
      rewrite <- IH'.
      rewrite filter_none; [ reflexivity | ].
      intros i Hi. rewrite (Hgrp' k items (or_introl eq_refl) i Hi). exact Hk.
Qed.

Lemma preorder_inorder_perm (n : node_ref) : Permutation (preorder n) (inorder n).
Proof.
  induction n as [| own center l IHl r IHr]; cbn [preorder inorder]; [ constructor | ].
  rewrite IHl, IHr. rewrite !app_assoc. apply Permutation_app_tail.
  apply Permutation_app_comm.
Qed.

Lemma truthy_center (own : odict) (center : option Z) (l r : node_ref) :
  well_formed (Node own center l r) ->
  truthy (Node own center l r) = true ->
  exists c, center = Some c.
Proof.
  intros Hwf Hn. destruct center as [c |]; [ exists c; reflexivity | ].
  cbn [well_formed] in Hwf. destruct Hwf as (_ & _ & _ & (Hown & _) & _).
  subst own. discriminate Hn.
Qed.





Lemma new_tree_inv (limit : nat) (S : list Interval) (tree : IntervalTree) :
  new_tree limit S = Ok tree ->
  IntervalNode limit S = Ok (_head tree)
  /\ tree = mkTree (_head tree) S true (length S).
Proof.
  unfold new_tree. destruct (IntervalNode limit S) as [head | e]; [ | discriminate ].
  cbn [bind]. intros H. injection H as <-. split; reflexivity.
Qed.

Lemma built_head_facts (limit : nat) (S : list Interval) (head : node_ref) :
  IntervalNode limit S = Ok head ->
  head <> PyNone /\ well_formed head /\ Permutation (preorder head) S.
Proof.
  intros H. destruct (IntervalNode_well_formed_perm _ _ _ H) as [Hwf Hperm].
  split; [ | split; [ exact Hwf | ] ].
  - pose proof (IntervalNode_children _ _ _ H) as Hc.
    destruct head; [ destruct Hc | discriminate ].
  - rewrite preorder_inorder_perm. exact Hperm.
Qed.



(** ** What [fuzzy_query] raises *)

Lemma IntervalNode_raises_RecursionError (limit : nat) :
  forall (S : list Interval) (e : exn),
    IntervalNode limit S = Raise e -> e = RecursionError.
Proof.
  induction limit as [| limit IH]; intros S e H.
  - cbn in H. injection H as <-. reflexivity.
  - destruct S as [| i rest]; [ discriminate | ].
    rewrite IntervalNode_step in H. cbv zeta in H.
    destruct (b_left (partition (get_center (i :: rest)) (i :: rest))) as [| x xs];
      cbn [bind] in H.
    + destruct (b_right (partition (get_center (i :: rest)) (i :: rest))) as [| y ys];
        cbn [bind] in H; [ discriminate | ].
      destruct (IntervalNode limit (y :: ys)) as [r | e'] eqn:Er; cbn [bind] in H;
        [ discriminate | ].
      injection H as <-. apply (IH _ _ Er).
    + destruct (IntervalNode limit (x :: xs)) as [l | e'] eqn:El; cbn [bind] in H.
      * destruct (b_right (partition (get_center (i :: rest)) (i :: rest))) as [| y ys];
          cbn [bind] in H; [ discriminate | ].
        destruct (IntervalNode limit (y :: ys)) as [r | e''] eqn:Er; cbn [bind] in H;
          [ discriminate | ].
        injection H as <-. apply (IH _ _ Er).
      * injection H as <-. apply (IH _ _ El).
Qed.

Lemma get_overlaps_raises_AttributeError (n : node_ref) (b e : Q) (err : exn) :
  get_overlaps n b e = Raise err -> err = AttributeError.
Proof.
  induction n as [| own center l IHl r IHr]; cbn [get_overlaps].
  - intros H. injection H as <-. reflexivity.
  - destruct center as [c |]; [ | intros H; injection H as <-; reflexivity ].
    destruct (Qleb b (inject_Z c) && truthy l).
    + destruct (get_overlaps l b e) as [items | e'] eqn:El; cbn [bind].
      * destruct (Qltb (inject_Z c) e && truthy r); [ | discriminate ].
        destruct (get_overlaps r b e) as [items' | e''] eqn:Er; cbn [bind];
          [ discriminate | ].
        intros H. injection H as <-. apply IHr. reflexivity.
      * intros H. injection H as <-. apply IHl. reflexivity.
    + cbn [bind]. destruct (Qltb (inject_Z c) e && truthy r); [ | discriminate ].
      destruct (get_overlaps r b e) as [items' | e''] eqn:Er; cbn [bind];
        [ discriminate | ].
      intros H. injection H as <-. apply IHr. reflexivity.
Qed.

(** Both [fuzzy_query] methods raise ValueError exactly when coverage > 1,
    and then the tree is left as it was, not rebuilt. *)
Lemma fuzzy_query_ValueError_iff (limit : nat) (margin : Q -> Q -> Q -> Q)
      (b e coverage : Q) (tree : IntervalTree) :
  (fst (Itree_py.fuzzy_query limit margin b e coverage tree) = Raise ValueError
   <-> 1 < coverage)
  /\ (1 < coverage ->
      Itree_py.fuzzy_query limit margin b e coverage tree = (Raise ValueError, tree)).
Proof.
  assert (Hguard : coverage_guard coverage = true <-> 1 < coverage).
  { unfold coverage_guard. rewrite andb_true_iff, !Qltb_true. split.
    - intros [_ H]. exact H.
    - intros H. split; [ lra | exact H ]. }
  split; [ split | ].
  - unfold Itree_py.fuzzy_query. destruct (coverage_guard coverage) eqn:G.
    + intros _. apply Hguard. reflexivity.
    + unfold tree_get_overlaps, and_then, build, ret.
      destruct (_in_sync tree); cbn [negb].
      * destruct (_in_sync tree); cbn [negb].
        -- destruct (get_overlaps _ _ _) as [found | err] eqn:E; cbn [fst];
             [ discriminate | ].
           intros H. injection H as ->.
           apply get_overlaps_raises_AttributeError in E. discriminate.
        -- destruct (IntervalNode limit (_intervals tree)) as [head | err] eqn:E.
           ++ destruct (get_overlaps _ _ _) as [found | err] eqn:E'; cbn [fst];
                [ discriminate | ].
              intros H. injection H as ->.
              apply get_overlaps_raises_AttributeError in E'. discriminate.
           ++ cbn [fst]. intros H. injection H as ->.
              apply IntervalNode_raises_RecursionError in E. discriminate.
      * destruct (IntervalNode limit (_intervals tree)) as [head | err] eqn:E.
        -- cbn [_in_sync negb].
           destruct (get_overlaps _ _ _) as [found | err] eqn:E'; cbn [fst];
             [ discriminate | ].
           intros H. injection H as ->.
           apply get_overlaps_raises_AttributeError in E'. discriminate.
        -- cbn [fst]. intros H. injection H as ->.
           apply IntervalNode_raises_RecursionError in E. discriminate.
  - intros H. apply Hguard in H. unfold Itree_py.fuzzy_query. rewrite H. reflexivity.
  - intros H. apply Hguard in H. unfold Itree_py.fuzzy_query. rewrite H. reflexivity.
Qed.

(** ** Iteration over trees that the walk does not cover *)

(** In the tree of the integration test the left child of the root has an
    empty own map: [minimum] stops at the root and the two intervals below
    that child are never produced. *)
Example iteration_skips_child_with_empty_map :
  Tree_py.to_list default_limit 20 (tree_of setUp_intervals)
  = Finished [SimpleInterval 0 40; SimpleInterval 5 15; SimpleInterval 10 20;
              SimpleInterval 15 25; SimpleInterval 20 30; SimpleInterval 25 35].
Proof. vm_compute. reflexivity. Qed.

(** The root of this tree has a left child and no right child: after the
    interval of the left child, [successor] evaluates [node == y.right] with
    [y.right] being [None], which raises AttributeError. *)
Example iteration_raises_without_right_sibling :
  Tree_py.to_list default_limit 20
    (tree_of [SimpleInterval 0 2; SimpleInterval 3 20; SimpleInterval 3 21;
              SimpleInterval 3 22])
  = Failed [SimpleInterval 0 2] AttributeError.
Proof. vm_compute. reflexivity. Qed.

(** ** Construction returns when every interval spans two units *)

Lemma insert_unique_In (x y : Z) (l : list Z) :
  In y (insert_unique x l) <-> y = x \/ In y l.
Proof.
  induction l as [| z l IH]; cbn [insert_unique].
  - cbn. intuition congruence.
  - destruct (Z.ltb_spec x z) as [Hlt | Hge].
    + cbn. intuition congruence.
    + destruct (Z.eqb_spec x z) as [-> | Hne].
      * cbn. intuition congruence.
      * cbn [In]. rewrite IH. intuition congruence.
Qed.

Lemma insert_unique_Sorted (x : Z) (l : list Z) :
  Sorted Z.lt l -> Sorted Z.lt (insert_unique x l).
Proof.
  induction l as [| z l IH]; intros Hs; cbn [insert_unique].
  - constructor; constructor.
  - destruct (Z.ltb_spec x z) as [Hlt | Hge].
    + constructor; [ exact Hs | constructor; exact Hlt ].
    + destruct (Z.eqb_spec x z) as [-> | Hne]; [ exact Hs | ].
      inversion Hs as [| ? ? Hl Hhd]; subst.
      constructor; [ apply IH; exact Hl | ].
      destruct l as [| w l]; cbn [insert_unique].
      * constructor. lia.
      * destruct (Z.ltb_spec x w); [ constructor; lia | ].
        destruct (Z.eqb_spec x w); [ exact Hhd | ].
        constructor. inversion Hhd; assumption.
Qed.

Lemma np_unique_In (y : Z) (l : list Z) : In y (np_unique l) <-> In y l.
Proof.
  unfold np_unique. induction l as [| x l IH]; cbn [fold_right]; [ reflexivity | ].
  rewrite insert_unique_In, IH. cbn. intuition congruence.
Qed.

Lemma np_unique_ascending (l : list Z) : StronglySorted Z.lt (np_unique l).
Proof.
  apply Sorted_StronglySorted; [ intros a b c; apply Z.lt_trans | ].
  unfold np_unique. induction l as [| x l IH]; cbn [fold_right]; [ constructor | ].
  apply insert_unique_Sorted. exact IH.
Qed.











(** * Further properties of the code *)

(** ** The order and the intersection of intervals *)

Lemma Qltb_inject (x y : Z) : Qltb (inject_Z x) (inject_Z y) = (x <? y)%Z.
Proof.
  destruct (Z.ltb_spec x y) as [H | H].
  - apply Qltb_true. rewrite <- Zlt_Qlt. exact H.
  - apply Qltb_false. rewrite <- Zle_Qle. exact H.
Qed.

(** X1.  [__lt__] is a strict total order on the bounds and agrees with
    [__eq__]: no interval is below itself, of two intervals exactly one of
    a < b, a == b, b < a holds, a < b and b < c give a < c, and a == b holds
    exactly when begin and end are the same. *)
Theorem interval_order_is_strict_and_total :
  forall a b c : Interval,
    IntervalOps.lt a a = false
    /\ ((IntervalOps.lt a b = true /\ IntervalOps.eq a b = false
         /\ IntervalOps.lt b a = false)
        \/ (IntervalOps.lt a b = false /\ IntervalOps.eq a b = true
            /\ IntervalOps.lt b a = false)
        \/ (IntervalOps.lt a b = false /\ IntervalOps.eq a b = false
            /\ IntervalOps.lt b a = true))
    /\ implb (IntervalOps.lt a b && IntervalOps.lt b c) (IntervalOps.lt a c) = true
    /\ (IntervalOps.eq a b = true <-> begin a = begin b /\ end_ a = end_ b).
Proof.
  intros a b c. conjuncts.
  - apply lt_false_spec. lia.
  - destruct (IntervalOps.lt a b) eqn:Hab; destruct (IntervalOps.lt b a) eqn:Hba;
      destruct (IntervalOps.eq a b) eqn:Heq;
      try apply lt_spec in Hab; try apply lt_spec in Hba;
      try apply lt_false_spec in Hab; try apply lt_false_spec in Hba;
      try apply key_eq_spec in Heq;
      try (assert (Hne : ~ (begin a = begin b /\ end_ a = end_ b))
            by (rewrite <- key_eq_spec; congruence));
      try lia; tauto.
  - destruct (IntervalOps.lt a b) eqn:Hab; [ | reflexivity ].
    destruct (IntervalOps.lt b c) eqn:Hbc; [ | reflexivity ].
    cbn [andb implb]. apply lt_spec in Hab. apply lt_spec in Hbc.
    apply lt_spec. lia.
  - apply key_eq_spec.
Qed.

(** X2.  [intersection] is symmetric and never negative; it is 0 exactly when
    [self.intersects(other.begin, other.end)] is false, and at least 1
    otherwise. *)
Theorem intersection_is_symmetric_and_matches_intersects :
  forall a b : Interval,
    IntervalMethods.intersection a b = IntervalMethods.intersection b a
    /\ (0 <= IntervalMethods.intersection a b)%Z
    /\ (IntervalMethods.intersection a b = 0%Z
        <-> IntervalOps.intersects a (inject_Z (begin b)) (inject_Z (end_ b)) = false)
    /\ (IntervalMethods.intersection a b = 0%Z
        \/ (1 <= IntervalMethods.intersection a b)%Z).
Proof.
  intros a b. unfold IntervalMethods.intersection, IntervalOps.intersects.
  rewrite !Qltb_inject.
  destruct (Z.leb_spec (end_ a) (begin b)); destruct (Z.leb_spec (end_ b) (begin a));
    destruct (Z.ltb_spec (begin a) (end_ b)); destruct (Z.ltb_spec (begin b) (end_ a));
    cbn [orb andb]; try lia; conjuncts; try lia;
    try (left; reflexivity); try (right; lia);
    try (split; [ reflexivity | reflexivity ]);
    try (split; [ lia | discriminate ]).
Qed.



(** The tests of [intersection] and [__len__] in test__itree.py. *)
Example test_intersection_len :
  IntervalMethods.intersection (SimpleInterval 1 3) (SimpleInterval 0 1) = 0%Z
  /\ IntervalMethods.intersection (SimpleInterval 1 3) (SimpleInterval 0 2) = 1%Z
  /\ IntervalMethods.intersection (SimpleInterval 1 3) (SimpleInterval 0 5) = 2%Z
  /\ IntervalMethods.intersection (SimpleInterval 1 3) (SimpleInterval 2 3) = 1%Z
  /\ IntervalMethods.intersection (SimpleInterval 1 3) (SimpleInterval 3 4) = 0%Z
  /\ IntervalMethods.__len__ (SimpleInterval 1 3) = 2%Z
  /\ IntervalMethods.__len__ (SimpleInterval 10 15) = 5%Z.
Proof. conjuncts; reflexivity. Qed.

(** ** get_center *)

Lemma ascending_same_elements (l1 : list Z) :
  forall l2, StronglySorted Z.lt l1 -> StronglySorted Z.lt l2 ->
             (forall z, In z l1 <-> In z l2) -> l1 = l2.
Proof.
  induction l1 as [| a l1 IH]; intros l2 H1 H2 Hin.
  - destruct l2 as [| b l2]; [ reflexivity | ].
    exfalso. apply (proj2 (Hin b)). left. reflexivity.
  - destruct l2 as [| b l2].
    + exfalso. apply (proj1 (Hin a)). left. reflexivity.
    + apply StronglySorted_inv in H1. destruct H1 as [H1 Ha].
      apply StronglySorted_inv in H2. destruct H2 as [H2 Hb].
      rewrite Forall_forall in Ha, Hb.
      assert (Hab : a = b).
      { destruct (proj1 (Hin a) (or_introl eq_refl)) as [Hba | Hal2]; [ congruence | ].
        destruct (proj2 (Hin b) (or_introl eq_refl)) as [Hab | Hbl1]; [ exact Hab | ].
        specialize (Ha b Hbl1). specialize (Hb a Hal2). lia. }
      subst b. f_equal. apply IH; [ exact H1 | exact H2 | ].
      intros z. split; intros Hz.
      * destruct (proj1 (Hin z) (or_intror Hz)) as [Heq | Hz2]; [ | exact Hz2 ].
        specialize (Ha z Hz). lia.
      * destruct (proj2 (Hin z) (or_intror Hz)) as [Heq | Hz1]; [ | exact Hz1 ].
        specialize (Hb z Hz). lia.
Qed.


(** X4.  The center depends only on the set of endpoints of the intervals:
    two lists with the same begin and end values, in whatever order and
    however often, have the same center. *)
Theorem get_center_depends_on_endpoint_set :
  forall S S' : list Interval,
    (forall z, In z (positions S) <-> In z (positions S')) ->
    get_center S = get_center S'.
Proof.
  intros S S' Hsame. unfold get_center. f_equal. f_equal.
  apply ascending_same_elements; try apply np_unique_ascending.
  intros z. rewrite !np_unique_In. apply Hsame.
Qed.

Lemma get_center_depends_on_endpoint_set_witness :
  get_center [SimpleInterval 1 2; SimpleInterval 3 4]
  = get_center [SimpleInterval 3 4; SimpleInterval 1 2; SimpleInterval 2 3;
                SimpleInterval 1 4].
Proof.
  apply (get_center_depends_on_endpoint_set
           [SimpleInterval 1 2; SimpleInterval 3 4]
           [SimpleInterval 3 4; SimpleInterval 1 2; SimpleInterval 2 3;
            SimpleInterval 1 4]).
  intros z. cbn. intuition congruence.
Defined.



(** ** The constructor of IntervalNode *)



Lemma IntervalNode_limit_mono (limit : nat) :
  forall (S : list Interval) (t : node_ref) (limit' : nat),
    IntervalNode limit S = Ok t -> (limit <= limit')%nat ->
    IntervalNode limit' S = Ok t.
Proof.
  induction limit as [| limit IH]; intros S t limit' H Hle; [ discriminate | ].
  destruct limit' as [| limit']; [ lia | ].
  destruct S as [| i rest]; [ exact H | ].
  rewrite IntervalNode_step in *. cbv zeta in *.
  destruct (b_left (partition (get_center (i :: rest)) (i :: rest))) as [| x xs].
  - cbn [bind] in *.
    destruct (b_right (partition (get_center (i :: rest)) (i :: rest))) as [| y ys];
      [ exact H | ].
    destruct (IntervalNode limit (y :: ys)) as [r | e] eqn:Er; [ | discriminate ].
    rewrite (IH _ _ limit' Er ltac:(lia)). exact H.
  - destruct (IntervalNode limit (x :: xs)) as [l | e] eqn:El; [ | discriminate ].
    rewrite (IH _ _ limit' El ltac:(lia)). cbn [bind] in *.
    destruct (b_right (partition (get_center (i :: rest)) (i :: rest))) as [| y ys];
      [ exact H | ].
    destruct (IntervalNode limit (y :: ys)) as [r | e] eqn:Er; [ | discriminate ].
    rewrite (IH _ _ limit' Er ltac:(lia)). exact H.
Qed.

(** X7.  The tree that the constructor returns does not depend on the
    recursion limit: a call that returns under one limit returns the same
    tree under every greater limit. *)
Theorem construction_is_independent_of_the_limit :
  forall (limit limit' : nat) (S : list Interval) (t : node_ref),
    (limit <= limit')%nat ->
    IntervalNode limit S = Ok t ->
    IntervalNode limit' S = Ok t.
Proof.
  intros limit limit' S t Hle H. apply (IntervalNode_limit_mono limit S t limit' H Hle).
Qed.

Lemma construction_is_independent_of_the_limit_witness :
  IntervalNode default_limit setUp_intervals = Ok (_head (tree_of setUp_intervals)).
Proof.
  apply (construction_is_independent_of_the_limit 4 default_limit setUp_intervals
           (_head (tree_of setUp_intervals))).
  - unfold default_limit. lia.
  - vm_compute. reflexivity.
Defined.


Lemma well_formed_node_at (root : node_ref) (p : path) :
  well_formed root -> well_formed (node_at root p).
Proof.
  intros Hwf. induction p as [| d p IH]; [ exact Hwf | ].
  cbn [node_at]. destruct (node_at root p) as [| own center l r]; [ exact I | ].
  destruct (well_formed_children _ _ _ _ IH) as [Hl Hr].
  destruct d; cbn [child]; assumption.
Qed.



(** X10.  In a constructed tree, intervals with the same bounds are kept
    together: every entry of every node's own map holds, under a key that is
    an interval of the input, exactly the intervals of the input with the
    bounds of that key, in input order; and every interval of the input is in
    such an entry. *)
Theorem equal_bounds_share_one_entry :
  forall (limit : nat) (S : list Interval) (t : node_ref),
    IntervalNode limit S = Ok t ->
    (forall k items, In (k, items) (entries t) ->
                     In k S /\ items = filter (IntervalOps.eq k) S)
    /\ (forall i, In i S ->
                  exists k items, In (k, items) (entries t) /\ In i items).
Proof.
  intros limit S t H. split.
  - intros k items Hin. apply (IntervalNode_groups _ _ _ H k items Hin).
  - intros i Hi.
    apply (Permutation_in _ (Permutation_sym (IntervalNode_inorder_perm _ _ _ H))) in Hi.
    rewrite inorder_entries in Hi. unfold own_items in Hi.
    apply in_flat_map in Hi. destruct Hi as ([k items] & Hin & Hi).
    exists k, items. split; [ exact Hin | exact Hi ].
Qed.

Lemma equal_bounds_share_one_entry_witness :
  let S := [mkInterval 0 10 1; mkInterval 20 30 2; mkInterval 0 10 3] in
  exists k items, In (k, items) (entries (_head (tree_of S)))
                  /\ In (mkInterval 0 10 3) items.
Proof.
  cbv zeta.
  apply (equal_bounds_share_one_entry default_limit
           [mkInterval 0 10 1; mkInterval 20 30 2; mkInterval 0 10 3]
           (_head (tree_of [mkInterval 0 10 1; mkInterval 20 30 2; mkInterval 0 10 3]))
           ltac:(vm_compute; reflexivity)).
  right. right. left. reflexivity.
Defined.

(** X11.  A constructed tree is equal to itself under [==]
    ([IntervalNode.__eq__]), and the comparison raises nothing. *)
Theorem constructed_tree_equals_itself :
  forall (limit : nat) (S : list Interval) (t : node_ref),
    IntervalNode limit S = Ok t -> node_eq t t = Ok true.
Proof.
  intros limit S t H. apply node_eq_refl.
  apply (IntervalNode_well_formed_perm _ _ _ H).
Qed.

Lemma constructed_tree_equals_itself_witness :
  node_eq (_head (tree_of (make_intervals 0 3 9)))
          (_head (tree_of (make_intervals 0 3 9))) = Ok true.
Proof.
  apply (constructed_tree_equals_itself default_limit (make_intervals 0 3 9)).
  vm_compute. reflexivity.
Defined.

(** ** min_value and max_value *)

Lemma lt_bounds (k i x : Interval) :
  IntervalOps.eq k i = true ->
  IntervalOps.lt i x = IntervalOps.lt k x /\ IntervalOps.lt x i = IntervalOps.lt x k.
Proof.
  intros H. apply key_eq_spec in H. destruct H as [Hb He].
  unfold IntervalOps.lt. rewrite Hb, He. split; reflexivity.
Qed.

Lemma ascending_last (l : list Interval) (k : Interval) :
  StronglySorted key_lt (l ++ [k]) -> forall x, In x l -> key_lt x k.
Proof.
  induction l as [| a l IH]; intros Hs x Hx; [ destruct Hx | ].
  cbn [app] in Hs. apply StronglySorted_inv in Hs. destruct Hs as [Hs Ha].
  destruct Hx as [<- | Hx].
  - rewrite Forall_forall in Ha. apply Ha. apply in_or_app. right. left. reflexivity.
  - apply IH; assumption.
Qed.

(** X12.  On a node of a constructed tree, [min_value] and [max_value]
    return keys of the node's own map such that no own interval of the node
    is below [min_value] or above [max_value] in the order of [__lt__]; on a
    node with an empty own map both raise StopIteration. *)
Theorem min_value_and_max_value_are_extreme :
  forall (limit : nat) (S : list Interval) (root : node_ref) (p : path),
    IntervalNode limit S = Ok root ->
    node_at root p <> PyNone ->
    match min_value (node_at root p), max_value (node_at root p) with
    | Ok lo, Ok hi =>
        In lo (node_items (node_at root p))
        /\ In hi (node_items (node_at root p))
        /\ forall i, In i (node_items (node_at root p)) ->
                     IntervalOps.lt i lo = false /\ IntervalOps.lt hi i = false
    | Raise e1, Raise e2 =>
        e1 = StopIteration /\ e2 = StopIteration
        /\ node_items (node_at root p) = []
    | _, _ => False
    end.
Proof.
  intros limit S root p Hroot Hne.
  destruct (IntervalNode_well_formed_perm _ _ _ Hroot) as [Hwf _].
  pose proof (well_formed_node_at root p Hwf) as Hn.
  destruct (node_at root p) as [| own center l r]; [ congruence | ].
  cbn [well_formed] in Hn. destruct Hn as (_ & Hasc & Hentries & _).
  unfold min_value, max_value. cbn [node_items].
  destruct own as [| [k items] rest].
  - cbn. conjuncts; reflexivity.
  - cbn [keys map fst].
    destruct (rev (k :: map fst rest)) as [| hi tl] eqn:Hrev.
    { apply (f_equal (@length Interval)) in Hrev. rewrite length_rev in Hrev.
      cbn in Hrev. discriminate. }
    assert (Hkeys : k :: map fst rest = rev tl ++ [hi]).
    { rewrite <- (rev_involutive (k :: map fst rest)), Hrev. reflexivity. }
    unfold ascending_keys in Hasc. cbn [keys map fst] in Hasc.
    assert (Hhi_key : In hi (keys ((k, items) :: rest))).
    { cbn [keys map fst]. rewrite Hkeys. apply in_or_app. right. left. reflexivity. }
    apply in_keys in Hhi_key. destruct Hhi_key as [hitems Hhi_in].
    conjuncts.
    + apply (in_own_items ((k, items) :: rest) k k items (or_introl eq_refl)).
      apply (Hentries k items (or_introl eq_refl)).
    + apply (in_own_items _ hi hi hitems Hhi_in). apply (Hentries hi hitems Hhi_in).
    + intros i Hi. unfold own_items in Hi. apply in_flat_map in Hi.
      destruct Hi as ([k' items'] & Hin & Hi). cbn [snd] in Hi.
      destruct (Hentries k' items' Hin) as [_ Hall].
      destruct (lt_bounds k' i k (Hall i Hi)) as [-> _].
      destruct (lt_bounds k' i hi (Hall i Hi)) as [_ ->].
      assert (Hk' : In k' (k :: map fst rest)).
      { apply (in_keys ((k, items) :: rest)). exists items'. exact Hin. }
      split.
      * destruct Hk' as [<- | Hk'].
        -- apply lt_false_spec. lia.
        -- apply StronglySorted_inv in Hasc. destruct Hasc as [_ Hall'].
           rewrite Forall_forall in Hall'. specialize (Hall' k' Hk').
           unfold key_lt in Hall'. apply lt_spec in Hall'. apply lt_false_spec. lia.
      * rewrite Hkeys in Hk', Hasc. apply in_app_or in Hk'.
        destruct Hk' as [Hk' | [<- | []]].
        -- pose proof (ascending_last _ _ Hasc k' Hk') as Hlt.
           unfold key_lt in Hlt. apply lt_spec in Hlt. apply lt_false_spec. lia.
        -- apply lt_false_spec. lia.
Qed.

Lemma min_value_and_max_value_are_extreme_witness :
  let n := node_at (_head (tree_of (make_intervals 0 3 9))) [] in
  match min_value n, max_value n with
  | Ok lo, Ok hi =>
      In lo (node_items n) /\ In hi (node_items n)
      /\ forall i, In i (node_items n) ->
                   IntervalOps.lt i lo = false /\ IntervalOps.lt hi i = false
  | Raise e1, Raise e2 =>
      e1 = StopIteration /\ e2 = StopIteration /\ node_items n = []
  | _, _ => False
  end.
Proof.
  cbv zeta.
  apply (min_value_and_max_value_are_extreme default_limit (make_intervals 0 3 9)
           (_head (tree_of (make_intervals 0 3 9))) []).
  - vm_compute. reflexivity.
  - vm_compute. discriminate.
Defined.

(** The tests of [min_value] and [max_value] in test__itree.py. *)
Example test_min_max_value :
  let node := _head (tree_of (make_intervals 0 3 9)) in
  min_value node = Ok (SimpleInterval 2 5)
  /\ min_value (child GoLeft node) = Ok (SimpleInterval 0 3)
  /\ max_value node = Ok (SimpleInterval 4 7)
  /\ max_value (child GoRight node) = Ok (SimpleInterval 7 10).
Proof. cbv zeta. conjuncts; vm_compute; reflexivity. Qed.

(** ** The queries never return what is not stored *)

Lemma filter_split_perm (f : Interval -> bool) (L : list Interval) :
  Permutation (filter f L ++ filter (fun x => negb (f x)) L) L.
Proof.
  induction L as [| a L IH]; cbn [filter]; [ constructor | ].
  destruct (f a); cbn [negb app].
  - constructor. exact IH.
  - symmetry. apply Permutation_cons_app. symmetry. exact IH.
Qed.

Lemma perm_pairs (a a' b b' A B : list Interval) :
  Permutation (a ++ a') A -> Permutation (b ++ b') B ->
  Permutation ((a ++ b) ++ a' ++ b') (A ++ B).
Proof.
  intros <- <-. rewrite <- !app_assoc. apply Permutation_app_head.
  rewrite !app_assoc. apply Permutation_app_tail. apply Permutation_app_comm.
Qed.

Lemma perm_triples (a a' b b' c c' A B C : list Interval) :
  Permutation (a ++ a') A -> Permutation (b ++ b') B -> Permutation (c ++ c') C ->
  Permutation ((a ++ b ++ c) ++ a' ++ b' ++ c') (A ++ B ++ C).
Proof.
  intros Ha Hb Hc. apply perm_pairs; [ exact Ha | ]. apply perm_pairs; assumption.
Qed.

Lemma search_sound (n : node_ref) (p : Q) :
  well_formed n ->
  (exists own c l r, n = Node own (Some c) l r) ->
  exists found rest,
    search n p = Ok found
    /\ Permutation (found ++ rest) (preorder n)
    /\ forall i, In i found -> IntervalOps.contains i p = true.
Proof.
  induction n as [| own center l IHl r IHr]; intros Hwf (own' & c & l' & r' & Heq);
    [ discriminate | ].
  injection Heq as -> -> -> ->. rename own' into own, l' into l, r' into r.
  pose proof Hwf as Hwf'. cbn [well_formed] in Hwf'.
  destruct Hwf' as (_ & Hasc & Hentries & _ & Hwl & Hwr).
  set (f := fun i => IntervalOps.contains i p).
  assert (Hown : search_own own p = filter f (own_items own)).
  { apply search_own_filter; [ exact Hasc | ].
    intros k items Hin. apply (Hentries k items Hin). }
  assert (Hchild : forall ch, well_formed ch -> truthy ch = true ->
                              exists own c l r, ch = Node own (Some c) l r).
  { intros ch Hw Ht. destruct ch as [| cown cc cl cr]; [ discriminate | ].
    destruct (truthy_center _ _ _ _ Hw Ht) as [c' ->]. eauto. }
  cbn [search preorder]. rewrite Hown.
  pose proof (filter_split_perm f (own_items own)) as Hsplit.
  destruct (Qltb p (inject_Z c) && truthy l) eqn:C1.
  - apply andb_true_iff in C1. destruct C1 as [_ Hl].
    destruct (IHl Hwl (Hchild l Hwl Hl)) as (fl & rl & -> & Hpl & Hfl).
    cbn [bind]. exists (filter f (own_items own) ++ fl).
    exists (filter (fun x => negb (f x)) (own_items own) ++ rl ++ preorder r).
    split; [ reflexivity | split ].
    + rewrite <- (app_nil_r fl) at 1.
      apply perm_triples; [ exact Hsplit | exact Hpl | reflexivity ].
    + intros i Hi. apply in_app_or in Hi. destruct Hi as [Hi | Hi].
      * apply filter_In in Hi. apply Hi.
      * apply Hfl. exact Hi.
  - destruct (Qleb (inject_Z c) p && truthy r) eqn:C2.
    + apply andb_true_iff in C2. destruct C2 as [_ Hr].
      destruct (IHr Hwr (Hchild r Hwr Hr)) as (fr & rr & -> & Hpr & Hfr).
      cbn [bind]. exists (filter f (own_items own) ++ fr).
      exists (filter (fun x => negb (f x)) (own_items own) ++ preorder l ++ rr).
      split; [ reflexivity | split ].
      * change (filter f (own_items own) ++ fr)
          with (filter f (own_items own) ++ [] ++ fr).
        apply perm_triples; [ exact Hsplit | reflexivity | exact Hpr ].
      * intros i Hi. apply in_app_or in Hi. destruct Hi as [Hi | Hi].
        -- apply filter_In in Hi. apply Hi.
        -- apply Hfr. exact Hi.
    + exists (filter f (own_items own)).
      exists (filter (fun x => negb (f x)) (own_items own) ++ preorder l ++ preorder r).
      split; [ reflexivity | split ].
      * rewrite <- (app_nil_r (filter f (own_items own))) at 1.
        change (@nil Interval) with ([] ++ @nil Interval) at 1.
        apply perm_triples; [ exact Hsplit | reflexivity | reflexivity ].
      * intros i Hi. apply filter_In in Hi. apply Hi.
Qed.

Lemma get_overlaps_sound (n : node_ref) (b e : Q) :
  well_formed n ->
  (exists own c l r, n = Node own (Some c) l r) ->
  exists found rest,
    get_overlaps n b e = Ok found
    /\ Permutation (found ++ rest) (preorder n)
    /\ forall i, In i found -> IntervalOps.intersects i b e = true.
Proof.
  induction n as [| own center l IHl r IHr]; intros Hwf (own' & c & l' & r' & Heq);
    [ discriminate | ].
  injection Heq as -> -> -> ->. rename own' into own, l' into l, r' into r.
  pose proof Hwf as Hwf'. cbn [well_formed] in Hwf'.
  destruct Hwf' as (_ & Hasc & Hentries & _ & Hwl & Hwr).
  set (f := fun i => IntervalOps.intersects i b e).
  assert (Hown : overlaps_own own b e = filter f (own_items own)).
  { apply overlaps_own_filter; [ exact Hasc | ].
    intros k items Hin. apply (Hentries k items Hin). }
  assert (Hchild : forall ch, well_formed ch -> truthy ch = true ->
                              exists own c l r, ch = Node own (Some c) l r).
  { intros ch Hw Ht. destruct ch as [| cown cc cl cr]; [ discriminate | ].
    destruct (truthy_center _ _ _ _ Hw Ht) as [c' ->]. eauto. }
  cbn [get_overlaps preorder]. rewrite Hown.
  pose proof (filter_split_perm f (own_items own)) as Hsplit.
  set (results := filter f (own_items own)) in *.
  assert (HL : exists fl rl,
             (if Qleb b (inject_Z c) && truthy l
              then items <- get_overlaps l b e ;; Ok (results ++ items)
              else Ok results) = Ok (results ++ fl)
             /\ Permutation (fl ++ rl) (preorder l)
             /\ forall i, In i fl -> f i = true).
  { destruct (Qleb b (inject_Z c) && truthy l) eqn:C1.
    - apply andb_true_iff in C1. destruct C1 as [_ Hl].
      destruct (IHl Hwl (Hchild l Hwl Hl)) as (fl & rl & -> & Hpl & Hfl).
      exists fl, rl. split; [ reflexivity | split; assumption ].
    - exists [], (preorder l). rewrite app_nil_r.
      split; [ reflexivity | split; [ reflexivity | intros i [] ] ]. }
  destruct HL as (fl & rl & -> & Hpl & Hfl). cbn [bind].
  assert (HR : exists fr rr,
             (if Qltb (inject_Z c) e && truthy r
              then items <- get_overlaps r b e ;; Ok ((results ++ fl) ++ items)
              else Ok (results ++ fl)) = Ok ((results ++ fl) ++ fr)
             /\ Permutation (fr ++ rr) (preorder r)
             /\ forall i, In i fr -> f i = true).
  { destruct (Qltb (inject_Z c) e && truthy r) eqn:C2.
    - apply andb_true_iff in C2. destruct C2 as [_ Hr].
      destruct (IHr Hwr (Hchild r Hwr Hr)) as (fr & rr & -> & Hpr & Hfr).
      exists fr, rr. split; [ reflexivity | split; assumption ].
    - exists [], (preorder r). rewrite app_nil_r.
      split; [ reflexivity | split; [ reflexivity | intros i [] ] ]. }
  destruct HR as (fr & rr & -> & Hpr & Hfr).
  exists ((results ++ fl) ++ fr).
  exists (filter (fun x => negb (f x)) (own_items own) ++ rl ++ rr).
  split; [ reflexivity | split ].
  - rewrite <- (app_assoc results fl fr). apply perm_triples; assumption.
  - intros i Hi. apply in_app_or in Hi. destruct Hi as [Hi | Hi];
      [ apply in_app_or in Hi; destruct Hi as [Hi | Hi] | ].
    + apply filter_In in Hi. apply Hi.
    + apply Hfl. exact Hi.
    + apply Hfr. exact Hi.
Qed.

Lemma built_root_has_center (limit : nat) (S : list Interval) (head : node_ref) :
  IntervalNode limit S = Ok head -> S <> [] ->
  exists own c l r, head = Node own (Some c) l r.
Proof.
  intros H Hne. pose proof (IntervalNode_children _ _ _ H) as Hc.
  destruct head as [| own center l r]; [ destruct Hc | ].
  destruct S as [| i rest]; [ congruence | ].
  cbv zeta in Hc. destruct Hc as (-> & _). eauto.
Qed.

(** X13.  On a tree built from a non-empty list, search(p) raises nothing and
    leaves the tree as it is; every interval it returns satisfies
    end >= p > begin, and the result together with some remainder is a
    permutation of the input: only stored intervals are returned, none more
    often than it is stored. *)
Theorem search_returns_only_stored_intervals :
  forall (limit : nat) (S : list Interval) (tree : IntervalTree) (p : Q),
    new_tree limit S = Ok tree -> S <> [] ->
    exists found rest,
      tree_search limit p tree = (Ok found, tree)
      /\ Permutation (found ++ rest) S
      /\ forall i, In i found -> inject_Z (begin i) < p /\ p <= inject_Z (end_ i).
Proof.
  intros limit S tree p Hnew Hne.
  destruct (new_tree_inv _ _ _ Hnew) as [Hhead Htree].
  destruct (built_head_facts _ _ _ Hhead) as (_ & Hwf & Hperm).
  destruct (search_sound (_head tree) p Hwf (built_root_has_center _ _ _ Hhead Hne))
    as (found & rest & Hs & Hp & Hf).
  exists found, rest. split; [ | split ].
  - unfold tree_search, and_then, build. rewrite Htree at 1. cbn [_in_sync negb].
    rewrite Hs. reflexivity.
  - rewrite Hp. exact Hperm.
  - intros i Hi. specialize (Hf i Hi). unfold IntervalOps.contains in Hf.
    apply andb_true_iff in Hf. destruct Hf as [H1 H2].
    apply Qleb_true in H1. apply Qltb_true in H2. split; assumption.
Qed.

Lemma search_returns_only_stored_intervals_witness :
  exists found rest,
    tree_search default_limit 5 (tree_of setUp_intervals)
    = (Ok found, tree_of setUp_intervals)
    /\ Permutation (found ++ rest) setUp_intervals
    /\ forall i, In i found -> inject_Z (begin i) < 5 /\ 5 <= inject_Z (end_ i).
Proof.
  apply (search_returns_only_stored_intervals default_limit setUp_intervals
           (tree_of setUp_intervals) 5).
  - vm_compute. reflexivity.
  - discriminate.
Defined.

(** X14.  On a tree built from a non-empty list, get_overlaps(b,e) raises
    nothing and leaves the tree as it is; every interval it returns satisfies
    e > begin and b < end, and the result together with some remainder is a
    permutation of the input. *)
Theorem get_overlaps_returns_only_stored_intervals :
  forall (limit : nat) (S : list Interval) (tree : IntervalTree) (b e : Q),
    new_tree limit S = Ok tree -> S <> [] ->
    exists found rest,
      tree_get_overlaps limit b e tree = (Ok found, tree)
      /\ Permutation (found ++ rest) S
      /\ forall i, In i found -> inject_Z (begin i) < e /\ b < inject_Z (end_ i).
Proof.
  intros limit S tree b e Hnew Hne.
  destruct (new_tree_inv _ _ _ Hnew) as [Hhead Htree].
  destruct (built_head_facts _ _ _ Hhead) as (_ & Hwf & Hperm).
  destruct (get_overlaps_sound (_head tree) b e Hwf
              (built_root_has_center _ _ _ Hhead Hne))
    as (found & rest & Hs & Hp & Hf).
  exists found, rest. split; [ | split ].
  - unfold tree_get_overlaps, and_then, build. rewrite Htree at 1. cbn [_in_sync negb].
    rewrite Hs. reflexivity.
  - rewrite Hp. exact Hperm.
  - intros i Hi. specialize (Hf i Hi). unfold IntervalOps.intersects in Hf.
    apply andb_true_iff in Hf. destruct Hf as [H1 H2].
    apply Qltb_true in H1. apply Qltb_true in H2. split; assumption.
Qed.

Lemma get_overlaps_returns_only_stored_intervals_witness :
  exists found rest,
    tree_get_overlaps default_limit 0 5 (tree_of setUp_intervals)
    = (Ok found, tree_of setUp_intervals)
    /\ Permutation (found ++ rest) setUp_intervals
    /\ forall i, In i found -> inject_Z (begin i) < 5 /\ 0 < inject_Z (end_ i).
Proof.
  apply (get_overlaps_returns_only_stored_intervals default_limit setUp_intervals
           (tree_of setUp_intervals) 0 5).
  - vm_compute. reflexivity.
  - discriminate.
Defined.



(** ** The three filtering queries and their guard *)

Lemma filtered_overlaps_raise_no_ValueError (limit : nat) (b e : Q)
      (g : Interval -> bool) (tree : IntervalTree) :
  fst ((_ <~ build limit ;;
        found <~ tree_get_overlaps limit b e ;;
        ret (Ok (filter g found))) tree) <> Raise ValueError.
Proof.
  unfold tree_get_overlaps, and_then, build, ret.
  destruct (_in_sync tree) eqn:Hsync; cbn [negb].
  - rewrite Hsync. cbn [negb].
    destruct (get_overlaps (_head tree) b e) as [found | err] eqn:E; cbn [fst];
      [ discriminate | ].
    apply get_overlaps_raises_AttributeError in E. subst err. discriminate.
  - destruct (IntervalNode limit (_intervals tree)) as [head | err] eqn:E.
    + cbn [_in_sync negb _head].
      destruct (get_overlaps head b e) as [found | err] eqn:E'; cbn [fst];
        [ discriminate | ].
      apply get_overlaps_raises_AttributeError in E'. subst err. discriminate.
    + cbn [fst]. apply IntervalNode_raises_RecursionError in E. subst err.
      discriminate.
Qed.

(** X17.  [fuzzy_query] (both versions) and [jaccard_query] raise ValueError
    exactly when their fraction argument is greater than 1: then they return
    at once and leave the tree as it is, not rebuilt; for every other
    argument, negative ones included, they raise no ValueError. *)
Theorem fraction_guard_rejects_only_above_one :
  forall (limit : nat) (margin : Q -> Q -> Q -> Q) (jaccard : Interval -> Q -> Q -> Q)
         (b e fraction : Q) (tree : IntervalTree),
    if Qltb 1 fraction
    then Itree_py.fuzzy_query limit margin b e fraction tree = (Raise ValueError, tree)
         /\ Tree_py.fuzzy_query limit margin b e fraction tree = (Raise ValueError, tree)
         /\ jaccard_query limit jaccard b e fraction tree = (Raise ValueError, tree)
    else fst (Itree_py.fuzzy_query limit margin b e fraction tree) <> Raise ValueError
         /\ fst (Tree_py.fuzzy_query limit margin b e fraction tree) <> Raise ValueError
         /\ fst (jaccard_query limit jaccard b e fraction tree) <> Raise ValueError.
Proof.
  intros limit margin jaccard b e fraction tree.
  unfold Itree_py.fuzzy_query, Tree_py.fuzzy_query, jaccard_query, coverage_guard.
  destruct (Qltb 1 fraction) eqn:H1.
  - assert (H0 : Qltb 0 fraction = true).
    { apply Qltb_true. apply Qltb_true in H1. lra. }
    rewrite H0. cbn [andb]. conjuncts; reflexivity.
  - rewrite andb_false_r. cbv zeta.
    conjuncts; apply filtered_overlaps_raise_no_ValueError.
Qed.

(** ** The size of the tree and repeated queries *)

Lemma insert_all_state (xs : list Interval) :
  forall tree,
    insert_all xs tree
    = mkTree (_head tree) (_intervals tree ++ xs)
        (match xs with [] => _in_sync tree | _ :: _ => false end) (_size tree).
Proof.
  induction xs as [| x xs IH]; intros tree; cbn [insert_all].
  - rewrite app_nil_r. destruct tree; reflexivity.
  - rewrite IH. unfold insert. cbn [snd _head _intervals _in_sync _size].
    rewrite <- app_assoc. destruct xs; reflexivity.
Qed.

(** X18.  [len] counts the inserts: on a tree built from S, after the
    intervals of xs have been inserted, [len(tree)] rebuilds the tree and
    returns len(S) + len(xs), provided the constructor returns on the
    extended list; the tree is then in sync and holds the extended list, and
    [bool(tree)] is false exactly when that list is empty. *)
Theorem len_counts_the_inserts :
  forall (limit : nat) (S xs : list Interval) (tree : IntervalTree) (head : node_ref),
    new_tree limit S = Ok tree ->
    IntervalNode limit (S ++ xs) = Ok head ->
    tree_len limit (insert_all xs tree)
    = (Ok (length S + length xs)%nat,
       mkTree head (S ++ xs) true (length S + length xs))
    /\ fst (tree_bool limit (insert_all xs tree))
       = Ok (negb (Nat.eqb (length S + length xs) 0)).
Proof.
  intros limit S xs tree head Hnew Hhead.
  destruct (new_tree_inv _ _ _ Hnew) as [Hh Htree].
  assert (Hlen : tree_len limit (insert_all xs tree)
                 = (Ok (length S + length xs)%nat,
                    mkTree head (S ++ xs) true (length S + length xs))).
  { rewrite insert_all_state. rewrite Htree. cbn [_head _intervals _in_sync _size].
    unfold tree_len, and_then, build. cbn [_in_sync _intervals negb].
    destruct xs as [| x xs].
    - cbn [negb _size length]. rewrite app_nil_r in *. rewrite Nat.add_0_r.
      rewrite Hh in Hhead. injection Hhead as <-. reflexivity.
    - cbn [negb]. rewrite Hhead. cbn [_size]. rewrite length_app. reflexivity. }
  split; [ exact Hlen | ].
  unfold tree_bool, and_then, ret. rewrite Hlen. reflexivity.
Qed.

Lemma len_counts_the_inserts_witness :
  fst (tree_len default_limit
         (insert_all [SimpleInterval 9 12; SimpleInterval 35 45]
            (tree_of (make_intervals 0 3 9))))
  = Ok 11%nat.
Proof.
  assert (Hhead : exists head,
             IntervalNode default_limit
               (make_intervals 0 3 9 ++ [SimpleInterval 9 12; SimpleInterval 35 45])
             = Ok head).
  { eexists. vm_compute. reflexivity. }
  destruct Hhead as [head Hhead].
  destruct (len_counts_the_inserts default_limit (make_intervals 0 3 9)
              [SimpleInterval 9 12; SimpleInterval 35 45]
              (tree_of (make_intervals 0 3 9)) head
              ltac:(vm_compute; reflexivity) Hhead) as [Hlen _].
  rewrite Hlen. reflexivity.
Defined.

Lemma build_settles (limit : nat) (tree : IntervalTree) :
  build limit (snd (build limit tree)) = (fst (build limit tree), snd (build limit tree)).
Proof.
  unfold build. destruct (_in_sync tree) eqn:Hsync; cbn [negb snd fst].
  - rewrite Hsync. reflexivity.
  - destruct (IntervalNode limit (_intervals tree)) as [head | err] eqn:E;
      cbn [snd fst _in_sync negb].
    + reflexivity.
    + rewrite Hsync, E. reflexivity.
Qed.

(** X19.  Queries settle the tree: a query repeated on the tree that the
    first call leaves gives the same result and the same tree again, whether
    the first call rebuilt the tree, found it in sync or failed to rebuild
    it; and a search, a get_overlaps and a len leave the same tree. *)
Theorem repeated_queries_change_nothing :
  forall (limit : nat) (tree : IntervalTree) (p b e : Q),
    tree_search limit p (snd (tree_search limit p tree)) = tree_search limit p tree
    /\ tree_get_overlaps limit b e (snd (tree_get_overlaps limit b e tree))
       = tree_get_overlaps limit b e tree
    /\ tree_len limit (snd (tree_len limit tree)) = tree_len limit tree
    /\ snd (tree_search limit p tree) = snd (tree_len limit tree)
    /\ snd (tree_get_overlaps limit b e tree) = snd (tree_len limit tree).
Proof.
  intros limit tree p b e.
  unfold tree_search, tree_get_overlaps, tree_len, and_then.
  pose proof (build_settles limit tree) as Hb.
  destruct (build limit tree) as [[u | err] t1] eqn:E; cbn [snd fst] in *.
  - destruct u. conjuncts; try reflexivity; rewrite Hb; reflexivity.
  - conjuncts; try reflexivity; rewrite Hb; reflexivity.
Qed.

(** ** The node iterators of _itree.py *)

Lemma fwd_step (root : node_ref) (cur : path) (y : option path) :
  FwdIt.successor root (Some cur) = Ok y ->
  FwdIt.__next__ (FwdIt.mk true root (Some cur)) = (Ok cur, FwdIt.mk true root y).
Proof.
  intros H. unfold FwdIt.__next__, FwdIt._has_next.
  cbn [FwdIt.initialized FwdIt.next FwdIt.root negb]. rewrite H. reflexivity.
Qed.

Lemma fwd_init (root : node_ref) :
  truthy root = true ->
  FwdIt.__next__ (FwdIt.init root)
  = FwdIt.__next__ (FwdIt.mk true root (Some (minimum root []))).
Proof.
  intros H. unfold FwdIt.__next__, FwdIt._has_next, FwdIt.init.
  cbn [FwdIt.initialized FwdIt.next FwdIt.root negb]. rewrite H. reflexivity.
Qed.

Lemma inorder_paths_items (root : node_ref) (n : node_ref) :
  forall p, node_at root p = n ->
            flat_map (fun q => node_items (node_at root q)) (inorder_paths n p)
            = inorder n.
Proof.
  induction n as [| own center l IHl r IHr]; intros p Hat; [ reflexivity | ].
  cbn [inorder_paths inorder]. rewrite flat_map_app. cbn [flat_map].
  rewrite IHl by (cbn [node_at]; rewrite Hat; reflexivity).
  rewrite IHr by (cbn [node_at]; rewrite Hat; reflexivity).
  rewrite Hat. reflexivity.
Qed.

(** The walk of the node iterator over the subtree found at [p]. *)
Lemma fwd_traverse (root : node_ref) (n : node_ref) :
  forall p,
    node_at root p = n -> n <> PyNone -> well_formed n ->
    every_node truthy n = true -> every_node left_has_sibling n = true ->
    forall y k,
      It.climb root p = Ok y ->
      for_loop FwdIt.__next__ (length (inorder_paths n p) + k)
        (FwdIt.mk true root (Some (minimum n p)))
      = produced_all (inorder_paths n p)
          (for_loop FwdIt.__next__ k (FwdIt.mk true root y)).
Proof.
  induction n as [| own center l IHl r IHr];
    intros p Hat Hne Hwf Htr Hsib y k Hclimb; [ congruence | ].
  destruct (every_node_Node _ _ _ _ _ Htr) as (Hn & Htl & Htr').
  destruct (every_node_Node _ _ _ _ _ Hsib) as (Hsn & Hsl & Hsr).
  destruct (well_formed_children _ _ _ _ Hwf) as [Hwl Hwr].
  destruct (truthy_center _ _ _ _ Hwf Hn) as [c ->].
  cbn [inorder_paths]. rewrite length_app. cbn [length].
  rewrite <- Nat.add_assoc, produced_all_app.
  assert (Hmid : for_loop FwdIt.__next__
                   (Datatypes.S (length (inorder_paths r (GoRight :: p))) + k)
                   (FwdIt.mk true root (Some p))
                 = produced_all (p :: inorder_paths r (GoRight :: p))
                     (for_loop FwdIt.__next__ k (FwdIt.mk true root y))).
  { cbn [Nat.add for_loop produced_all fold_right].
    destruct r as [| rown rc rl rr].
    - rewrite (fwd_step root p y).
      + reflexivity.
      + unfold FwdIt.successor. rewrite Hat. cbn [child truthy]. exact Hclimb.
    - assert (Hr : truthy (Node rown rc rl rr) = true)
        by (apply every_truthy; [ discriminate | exact Htr' ]).
      rewrite (fwd_step root p (Some (minimum (Node rown rc rl rr) (GoRight :: p)))).
      + f_equal. apply IHr; try assumption.
        * cbn [node_at]. rewrite Hat. reflexivity.
        * discriminate.
        * rewrite climb_right; [ exact Hclimb | rewrite Hat; exact Hn | ].
          rewrite Hat. exact Hwr.
      + unfold FwdIt.successor. rewrite Hat. cbn [child]. rewrite Hr. reflexivity. }
  destruct l as [| lown lc ll lr].
  - cbn [inorder_paths length Nat.add produced_all fold_right minimum truthy].
    exact Hmid.
  - assert (Hl : truthy (Node lown lc ll lr) = true)
      by (apply every_truthy; [ discriminate | exact Htl ]).
    cbn [minimum]. rewrite Hl.
    rewrite (IHl (GoLeft :: p)) with (y := Some p); try assumption.
    + f_equal. exact Hmid.
    + cbn [node_at]. rewrite Hat. reflexivity.
    + discriminate.
    + apply (climb_left root p own c (Node lown lc ll lr) r); try assumption.
      destruct r; [ discriminate Hsn | discriminate ].
Qed.

(** X20.  On a constructed tree in which every node has an own interval and
    every node with a left child also has a right child, iterating the root
    node ([IntervalNode.__iter__]) produces every node once, in-order, and
    ends after one call more than there are nodes; the own intervals of the
    nodes produced, taken in that order, are the in-order intervals of the
    tree. *)
Theorem node_iteration_is_inorder :
  forall (limit : nat) (S : list Interval) (root : node_ref) (k : nat),
    IntervalNode limit S = Ok root ->
    every_node truthy root = true ->
    every_node left_has_sibling root = true ->
    for_loop FwdIt.__next__ (length (inorder_paths root []) + Datatypes.S k)
      (node_iter root)
    = Finished (inorder_paths root [])
    /\ flat_map (fun q => node_items (node_at root q)) (inorder_paths root [])
       = inorder root.
Proof.
  intros limit S root k Hroot Htr Hsib.
  destruct (built_head_facts _ _ _ Hroot) as (Hne & Hwf & _).
  split; [ | apply inorder_paths_items; reflexivity ].
  assert (Hpos : exists m, length (inorder_paths root []) = Datatypes.S m).
  { destruct root as [| own center l r]; [ congruence | ].
    cbn [inorder_paths]. rewrite length_app. cbn [length].
    eexists. rewrite Nat.add_succ_r. reflexivity. }
  destruct Hpos as [m Hm].
  assert (Hstart : for_loop FwdIt.__next__
                     (length (inorder_paths root []) + Datatypes.S k) (node_iter root)
                   = for_loop FwdIt.__next__
                       (length (inorder_paths root []) + Datatypes.S k)
                       (FwdIt.mk true root (Some (minimum root [])))).
  { rewrite Hm. cbn [Nat.add for_loop]. unfold node_iter.
    rewrite fwd_init by (apply every_truthy; assumption). reflexivity. }
  rewrite Hstart.
  rewrite (fwd_traverse root root [] eq_refl Hne Hwf Htr Hsib None (Datatypes.S k) eq_refl).
  assert (Hend : for_loop FwdIt.__next__ (Datatypes.S k) (FwdIt.mk true root None)
                 = Finished []) by reflexivity.
  rewrite Hend. clear Hstart Hm. unfold produced_all.
  induction (inorder_paths root []) as [| x l IH]; [ reflexivity | ].
  cbn [fold_right]. rewrite IH. reflexivity.
Qed.

Lemma node_iteration_is_inorder_witness :
  let root := _head (tree_of (make_intervals 0 3 9)) in
  for_loop FwdIt.__next__ 5 (node_iter root)
  = Finished [[GoLeft]; []; [GoRight]; [GoRight; GoRight]].
Proof.
  cbv zeta.
  destruct (node_iteration_is_inorder default_limit (make_intervals 0 3 9)
              (_head (tree_of (make_intervals 0 3 9))) 0
              ltac:(vm_compute; reflexivity)
              ltac:(vm_compute; reflexivity)
              ltac:(vm_compute; reflexivity)) as [H _].
  exact H.
Defined.

(** test_iterate of test__itree.py: the first and the last node, and the
    iteration of the node of an empty list. *)
Example test_iterate :
  let root := _head (tree_of (make_intervals 0 3 9)) in
  for_loop FwdIt.__next__ 5 (node_iter root)
  = Finished [[GoLeft]; []; [GoRight]; [GoRight; GoRight]]
  /\ IntervalNode default_limit [SimpleInterval 0 3; SimpleInterval 1 4]
     = Ok (node_at root [GoLeft])
  /\ IntervalNode default_limit [SimpleInterval 8 11]
     = Ok (node_at root [GoRight; GoRight])
  /\ for_loop FwdIt.__next__ 5 (node_iter (_head (tree_of []))) = Finished [].
Proof. cbv zeta. conjuncts; vm_compute; reflexivity. Qed.

Lemma siblings_differ_rev (own : odict) (c : Z) (l r : node_ref) :
  well_formed (Node own (Some c) l r) ->
  truthy r = true -> l <> PyNone ->
  node_eq r l = Ok false.
Proof.
  intros Hwf Hr Hl.
  destruct (truthy_Node _ Hr) as ([k items] & rown & rc & rl & rr & ->).
  destruct l as [| lown lc ll lr]; [ congruence | ].
  cbn [node_eq].
  destruct (odict_eq ((k, items) :: rown) lown) eqn:E; [ exfalso | reflexivity ].
  destruct (odict_eq_shares_key _ _ k items E (or_introl eq_refl))
    as (k' & items' & Hin' & Hk').
  cbn [well_formed] in Hwf.
  destruct Hwf as (_ & _ & _ & (_ & Hleft & Hright) & Hwl & Hwr).
  assert (H1 : goes_right c k = true).
  { apply Hright. apply (key_in_inorder _ _ _ _ k items Hwr). left. reflexivity. }
  assert (H2 : goes_left c k' = true).
  { apply Hleft. apply (key_in_inorder _ _ _ _ k' items' Hwl). exact Hin'. }
  apply key_eq_spec in Hk'. destruct Hk' as [_ He].
  unfold goes_left in H2. unfold goes_right in H1. rewrite <- He, H2 in H1.
  discriminate.
Qed.

Lemma rev_climb_left (root : node_ref) (p : path) :
  truthy (node_at root p) = true ->
  well_formed (child GoLeft (node_at root p)) ->
  RevIt.climb root (GoLeft :: p) = RevIt.climb root p.
Proof.
  intros Htruthy Hwf. cbn [RevIt.climb node_at]. rewrite Htruthy.
  rewrite (node_eq_refl _ Hwf). reflexivity.
Qed.

Lemma rev_climb_right (root : node_ref) (p : path) (own : odict) (c : Z)
      (l r : node_ref) :
  node_at root p = Node own (Some c) l r ->
  well_formed (Node own (Some c) l r) ->
  truthy (Node own (Some c) l r) = true ->
  truthy r = true -> l <> PyNone ->
  RevIt.climb root (GoRight :: p) = Ok (Some p).
Proof.
  intros Hat Hwf Hn Hr Hl. cbn [RevIt.climb node_at]. rewrite Hat, Hn. cbn [child].
  rewrite (siblings_differ_rev _ _ _ _ Hwf Hr Hl). reflexivity.
Qed.

Lemma rev_step (root : node_ref) (cur : path) (y : option path) :
  RevIt.predecessor root (Some cur) = Ok y ->
  RevIt.__next__ (RevIt.mk true root (Some cur)) = (Ok cur, RevIt.mk true root y).
Proof.
  intros H. unfold RevIt.__next__, RevIt.has_next.
  cbn [RevIt.initialized RevIt.next RevIt.root negb]. rewrite H. reflexivity.
Qed.

Lemma rev_init (root : node_ref) :
  truthy root = true ->
  RevIt.__next__ (RevIt.init root)
  = RevIt.__next__ (RevIt.mk true root (Some (maximum root []))).
Proof.
  intros H. unfold RevIt.__next__, RevIt.has_next, RevIt.init.
  cbn [RevIt.initialized RevIt.next RevIt.root negb]. rewrite H. reflexivity.
Qed.

(** The walk of the reverse iterator over the subtree found at [p]. *)
Lemma rev_traverse (root : node_ref) (n : node_ref) :
  forall p,
    node_at root p = n -> n <> PyNone -> well_formed n ->
    every_node truthy n = true -> every_node right_has_sibling n = true ->
    forall y k,
      RevIt.climb root p = Ok y ->
      for_loop RevIt.__next__ (length (inorder_paths n p) + k)
        (RevIt.mk true root (Some (maximum n p)))
      = produced_all (rev (inorder_paths n p))
          (for_loop RevIt.__next__ k (RevIt.mk true root y)).
Proof.
  induction n as [| own center l IHl r IHr];
    intros p Hat Hne Hwf Htr Hsib y k Hclimb; [ congruence | ].
  destruct (every_node_Node _ _ _ _ _ Htr) as (Hn & Htl & Htr').
  destruct (every_node_Node _ _ _ _ _ Hsib) as (Hsn & Hsl & Hsr).
  destruct (well_formed_children _ _ _ _ Hwf) as [Hwl Hwr].
  destruct (truthy_center _ _ _ _ Hwf Hn) as [c ->].
  cbn [inorder_paths]. rewrite rev_app_distr. cbn [rev]. rewrite <- app_assoc.
  cbn [app]. rewrite produced_all_app.
  replace (length (inorder_paths l (GoLeft :: p) ++ p :: inorder_paths r (GoRight :: p))
           + k)%nat
    with (length (inorder_paths r (GoRight :: p))
          + Datatypes.S (length (inorder_paths l (GoLeft :: p)) + k))%nat
    by (rewrite length_app; cbn [length]; lia).
  assert (Hmid : for_loop RevIt.__next__
                   (Datatypes.S (length (inorder_paths l (GoLeft :: p)) + k))
                   (RevIt.mk true root (Some p))
                 = produced_all (p :: rev (inorder_paths l (GoLeft :: p)))
                     (for_loop RevIt.__next__ k (RevIt.mk true root y))).
  { cbn [for_loop produced_all fold_right].
    destruct l as [| lown lc ll lr].
    - rewrite (rev_step root p y).
      + reflexivity.
      + unfold RevIt.predecessor. rewrite Hat. cbn [child truthy]. exact Hclimb.
    - assert (Hl : truthy (Node lown lc ll lr) = true)
        by (apply every_truthy; [ discriminate | exact Htl ]).
      rewrite (rev_step root p (Some (maximum (Node lown lc ll lr) (GoLeft :: p)))).
      + f_equal. apply IHl; try assumption.
        * cbn [node_at]. rewrite Hat. reflexivity.
        * discriminate.
        * rewrite rev_climb_left; [ exact Hclimb | rewrite Hat; exact Hn | ].
          rewrite Hat. exact Hwl.
      + unfold RevIt.predecessor. rewrite Hat. cbn [child]. rewrite Hl. reflexivity. }
  destruct r as [| rown rc rl rr].
  - cbn [inorder_paths rev length Nat.add produced_all fold_right maximum truthy].
    exact Hmid.
  - assert (Hr : truthy (Node rown rc rl rr) = true)
      by (apply every_truthy; [ discriminate | exact Htr' ]).
    cbn [maximum]. rewrite Hr.
    rewrite (IHr (GoRight :: p)) with (y := Some p); try assumption.
    + f_equal. exact Hmid.
    + cbn [node_at]. rewrite Hat. reflexivity.
    + discriminate.
    + apply (rev_climb_right root p own c l (Node rown rc rl rr)); try assumption.
      destruct l; [ discriminate Hsn | discriminate ].
Qed.

(** X21.  On a constructed tree in which every node has an own interval and
    every node with a right child also has a left child, the reverse node
    iterator produces every node once, in the reverse of the in-order, and
    ends after one call more than there are nodes. *)
Theorem reverse_node_iteration_is_reverse_inorder :
  forall (limit : nat) (S : list Interval) (root : node_ref) (k : nat),
    IntervalNode limit S = Ok root ->
    every_node truthy root = true ->
    every_node right_has_sibling root = true ->
    for_loop RevIt.__next__ (length (inorder_paths root []) + Datatypes.S k)
      (RevIt.init root)
    = Finished (rev (inorder_paths root [])).
Proof.
  intros limit S root k Hroot Htr Hsib.
  destruct (built_head_facts _ _ _ Hroot) as (Hne & Hwf & _).
  assert (Hpos : exists m, length (inorder_paths root []) = Datatypes.S m).
  { destruct root as [| own center l r]; [ congruence | ].
    cbn [inorder_paths]. rewrite length_app. cbn [length].
    eexists. rewrite Nat.add_succ_r. reflexivity. }
  destruct Hpos as [m Hm].
  assert (Hstart : for_loop RevIt.__next__
                     (length (inorder_paths root []) + Datatypes.S k) (RevIt.init root)
                   = for_loop RevIt.__next__
                       (length (inorder_paths root []) + Datatypes.S k)
                       (RevIt.mk true root (Some (maximum root [])))).
  { rewrite Hm. cbn [Nat.add for_loop].
    rewrite rev_init by (apply every_truthy; assumption). reflexivity. }
  rewrite Hstart.
  rewrite (rev_traverse root root [] eq_refl Hne Hwf Htr Hsib None (Datatypes.S k) eq_refl).
  assert (Hend : for_loop RevIt.__next__ (Datatypes.S k) (RevIt.mk true root None)
                 = Finished []) by reflexivity.
  rewrite Hend. clear Hstart Hm. unfold produced_all.
  induction (rev (inorder_paths root [])) as [| x l IH]; [ reflexivity | ].
  cbn [fold_right]. rewrite IH. reflexivity.
Qed.

Lemma reverse_node_iteration_is_reverse_inorder_witness :
  let root := _head (tree_of [SimpleInterval 0 40; SimpleInterval 5 10;
                              SimpleInterval 30 50]) in
  for_loop RevIt.__next__ 4 (RevIt.init root) = Finished [[GoRight]; []; [GoLeft]].
Proof.
  cbv zeta.
  apply (reverse_node_iteration_is_reverse_inorder default_limit
           [SimpleInterval 0 40; SimpleInterval 5 10; SimpleInterval 30 50]
           (_head (tree_of [SimpleInterval 0 40; SimpleInterval 5 10;
                            SimpleInterval 30 50])) 0);
    vm_compute; reflexivity.
Defined.

(** ** The filtering queries grow with their tolerance *)

Lemma filter_filter_implies (f g : Interval -> bool) (l : list Interval) :
  (forall i, f i = true -> g i = true) -> filter f (filter g l) = filter f l.
Proof.
  intros H. induction l as [| a l IH]; cbn [filter]; [ reflexivity | ].
  destruct (g a) eqn:Hg; cbn [filter].
  - rewrite IH. reflexivity.
  - destruct (f a) eqn:Hf; [ | exact IH ].
    rewrite (H a Hf) in Hg. discriminate.
Qed.




(** X23.  [jaccard_query] shrinks with the threshold: for two thresholds that
    pass the guard, the lower one second, the two calls leave the same tree,
    fail alike or both return, and the result for the higher threshold is
    the result for the lower one filtered by the higher threshold. *)
Theorem jaccard_query_shrinks_with_the_threshold :
  forall (limit : nat) (jaccard : Interval -> Q -> Q -> Q) (b e j1 j2 : Q)
         (tree : IntervalTree),
    j1 <= 1 -> j2 <= j1 ->
    snd (jaccard_query limit jaccard b e j1 tree)
    = snd (jaccard_query limit jaccard b e j2 tree)
    /\ match fst (jaccard_query limit jaccard b e j1 tree),
             fst (jaccard_query limit jaccard b e j2 tree) with
       | Ok r1, Ok r2 => r1 = filter (fun interval => Qleb j1 (jaccard interval b e)) r2
       | Raise e1, Raise e2 => e1 = e2
       | _, _ => False
       end.
Proof.
  intros limit jaccard b e j1 j2 tree H1 H2.
  assert (H2' : j2 <= 1) by lra.
  unfold jaccard_query.
  rewrite (coverage_guard_false _ H1), (coverage_guard_false _ H2').
  unfold and_then, ret.
  destruct (build limit tree) as [[u | err] t1]; cbn [fst snd];
    [ | split; reflexivity ].
  destruct (tree_get_overlaps limit b e t1) as [[found | err] t2]; cbn [fst snd];
    [ | split; reflexivity ].
  split; [ reflexivity | ].
  symmetry. apply filter_filter_implies. intros i Hi.
  rewrite Qleb_true in *. lra.
Qed.

Lemma jaccard_query_shrinks_with_the_threshold_witness :
  let tree := tree_of (make_intervals 0 3 9) in
  let jaccard := fun (i : Interval) (b e : Q) => inject_Z (begin i) / 10 in
  match fst (jaccard_query default_limit jaccard 4 6 (1 # 2) tree),
        fst (jaccard_query default_limit jaccard 4 6 (1 # 4) tree) with
  | Ok r1, Ok r2 => r1 = filter (fun interval => Qleb (1 # 2) (jaccard interval 4 6)) r2
  | Raise e1, Raise e2 => e1 = e2
  | _, _ => False
  end.
Proof.
  cbv zeta.
  apply (jaccard_query_shrinks_with_the_threshold default_limit
           (fun (i : Interval) (b e : Q) => inject_Z (begin i) / 10)
           4 6 (1 # 2) (1 # 4) (tree_of (make_intervals 0 3 9)));
    vm_compute; discriminate.
Defined.



(** ** Iterators after the end of the iteration *)

Lemma after_calls_add (St A : Type) (next : St -> result A * St) (a b : nat) (it : St) :
  after_calls next (a + b) it = after_calls next b (after_calls next a it).
Proof.
  revert it. induction a as [| a IH]; intros it; [ reflexivity | ].
  cbn [Nat.add after_calls]. apply IH.
Qed.

Lemma drain_queue_state (root : node_ref) (nd : option path) (q : list Interval) :
  after_calls It.next (length q) (It.mk true root nd (Some q))
  = It.mk true root nd (Some []).
Proof.
  induction q as [| x q IH]; [ reflexivity | ].
  cbn [length after_calls].
  unfold It.next at 2, It.has_next, It.advance. cbn. exact IH.
Qed.

(** The walk of [traverse], followed on the iterator object. *)
Lemma traverse_state (root : node_ref) (n : node_ref) :
  forall p,
    node_at root p = n -> n <> PyNone -> well_formed n ->
    every_node truthy n = true -> every_node left_has_sibling n = true ->
    forall st,
      enters root st (minimum n p) ->
      after_calls It.next (length (inorder n)) st = drained root (maximum n p).
Proof.
  induction n as [| own center l IHl r IHr];
    intros p Hat Hne Hwf Htr Hsib st Henter; [ congruence | ].
  destruct (every_node_Node _ _ _ _ _ Htr) as (Hn & Htl & Htr').
  destruct (every_node_Node _ _ _ _ _ Hsib) as (Hsn & Hsl & Hsr).
  destruct (well_formed_children _ _ _ _ Hwf) as [Hwl Hwr].
  destruct (truthy_items _ Hwf Hn) as (x & q & Hitems).
  destruct (truthy_center _ _ _ _ Hwf Hn) as [c ->].
  cbn [inorder]. rewrite !length_app, !after_calls_add.
  assert (Hmid : forall s,
             enters root s p ->
             after_calls It.next (length (inorder r))
               (after_calls It.next (length (own_items own)) s)
             = drained root (maximum (Node own (Some c) l r) p)).
  { intros s Hs.
    assert (Hitems' : node_items (node_at root p) = x :: q)
      by (rewrite Hat; exact Hitems).
    cbn [node_items] in Hitems. rewrite Hitems.
    cbn [length after_calls]. rewrite (Hs x q Hitems'). cbn [snd].
    rewrite drain_queue_state. fold (drained root p).
    cbn [maximum]. destruct r as [| rown rc rl rr]; [ reflexivity | ].
    assert (Hr : truthy (Node rown rc rl rr) = true)
      by (apply every_truthy; [ discriminate | exact Htr' ]).
    rewrite Hr. apply IHr; try assumption.
    - cbn [node_at]. rewrite Hat. reflexivity.
    - discriminate.
    - apply advance_enters. unfold It.successor. rewrite Hat. cbn [child].
      rewrite Hr. reflexivity. }
  destruct l as [| lown lc ll lr].
  - cbn [inorder length after_calls]. apply Hmid. exact Henter.
  - assert (Hl : truthy (Node lown lc ll lr) = true)
      by (apply every_truthy; [ discriminate | exact Htl ]).
    cbn [minimum] in Henter. rewrite Hl in Henter.
    rewrite (IHl (GoLeft :: p)); try assumption.
    + apply Hmid. apply advance_enters.
      rewrite successor_of_maximum; try assumption.
      * apply (climb_left root p own c (Node lown lc ll lr) r); try assumption.
        destruct r; [ discriminate Hsn | discriminate ].
      * cbn [node_at]. rewrite Hat. reflexivity.
    + cbn [node_at]. rewrite Hat. reflexivity.
    + discriminate.
Qed.

(** X25.  The iterator of _tree.py does not stay exhausted.  On a tree built
    from S in which every node has an own interval and every node with a left
    child also has a right child, the call after the last interval raises
    StopIteration, and every call after that one raises AttributeError
    ([successor] is then called on [None]). *)
Theorem exhausted_tree_iterator_raises_AttributeError :
  forall (limit : nat) (S : list Interval) (root : node_ref) (k : nat),
    IntervalNode limit S = Ok root ->
    every_node truthy root = true ->
    every_node left_has_sibling root = true ->
    fst (It.next (after_calls It.next (length S) (It.init root)))
    = Raise StopIteration
    /\ fst (It.next (after_calls It.next (length S + Datatypes.S k) (It.init root)))
       = Raise AttributeError.
Proof.
  intros limit S root k Hroot Htr Hsib.
  destruct (built_head_facts _ _ _ Hroot) as (Hne & Hwf & Hperm).
  assert (Hlen : length S = length (inorder root)).
  { rewrite <- (Permutation_length Hperm).
    apply Permutation_length. apply preorder_inorder_perm. }
  assert (Hwalk : after_calls It.next (length S) (It.init root)
                  = drained root (maximum root [])).
  { rewrite Hlen. apply (traverse_state root root [] eq_refl Hne Hwf Htr Hsib).
    apply init_enters. apply every_truthy; assumption. }
  assert (Hstop : It.next (drained root (maximum root []))
                  = (Raise StopIteration, It.mk true root None (Some []))).
  { unfold It.next, It.has_next, It.advance, drained.
    cbn [It.initialized It.queue It.root It.node It.queue_truthy length Nat.eqb negb].
    rewrite (successor_of_maximum root root [] eq_refl Hwf Htr). reflexivity. }
  assert (Hdead : forall j, after_calls It.next j (It.mk true root None (Some []))
                            = It.mk true root None (Some [])).
  { induction j as [| j IH]; [ reflexivity | ]. cbn [after_calls]. exact IH. }
  split.
  - rewrite Hwalk, Hstop. reflexivity.
  - rewrite after_calls_add, Hwalk. cbn [after_calls]. rewrite Hstop. cbn [snd].
    rewrite Hdead. reflexivity.
Qed.

Lemma exhausted_tree_iterator_raises_AttributeError_witness :
  let root := _head (tree_of (make_intervals 0 3 9)) in
  fst (It.next (after_calls It.next 9 (It.init root))) = Raise StopIteration
  /\ fst (It.next (after_calls It.next 10 (It.init root))) = Raise AttributeError.
Proof.
  cbv zeta.
  apply (exhausted_tree_iterator_raises_AttributeError default_limit
           (make_intervals 0 3 9) (_head (tree_of (make_intervals 0 3 9))) 0);
    vm_compute; reflexivity.
Defined.

Lemma node_eq_raises (a : node_ref) :
  forall b e, node_eq a b = Raise e -> e = AttributeError.
Proof.
  induction a as [| i1 c1 l1 IHl r1 IHr]; intros [| i2 c2 l2 r2] e; cbn [node_eq];
    try discriminate; try (intros H; injection H as <-; reflexivity).
  destruct (odict_eq i1 i2); [ | discriminate ].
  destruct (node_eq l1 l2) as [[|] | e'] eqn:El; cbn [bind].
  - apply IHr.
  - discriminate.
  - intros H. injection H as <-. apply (IHl _ _ El).
Qed.

Lemma fwd_climb_raises (root : node_ref) (p : path) (e : exn) :
  It.climb root p = Raise e -> e = AttributeError.
Proof.
  induction p as [| d y IH]; cbn [It.climb]; [ discriminate | ].
  destruct (truthy (node_at root y)); [ | discriminate ].
  destruct (node_eq (node_at root (d :: y)) (child GoRight (node_at root y)))
    as [[|] | e'] eqn:E; cbn [bind].
  - exact IH.
  - discriminate.
  - intros H. injection H as <-. apply (node_eq_raises _ _ _ E).
Qed.

Lemma rev_climb_raises (root : node_ref) (p : path) (e : exn) :
  RevIt.climb root p = Raise e -> e = AttributeError.
Proof.
  induction p as [| d y IH]; cbn [RevIt.climb]; [ discriminate | ].
  destruct (truthy (node_at root y)); [ | discriminate ].
  destruct (node_eq (node_at root (d :: y)) (child GoLeft (node_at root y)))
    as [[|] | e'] eqn:E; cbn [bind].
  - exact IH.
  - discriminate.
  - intros H. injection H as <-. apply (node_eq_raises _ _ _ E).
Qed.

(** X26.  The node iterators of _itree.py stay exhausted: a call of
    [__next__] that raises StopIteration leaves the iterator object as it
    was, so that every later call raises StopIteration again. *)
Theorem exhausted_node_iterators_stay_exhausted :
  forall (fwd fwd' : FwdIt.t) (bwd bwd' : RevIt.t) (k : nat),
    FwdIt.__next__ fwd = (Raise StopIteration, fwd') ->
    RevIt.__next__ bwd = (Raise StopIteration, bwd') ->
    FwdIt.__next__ (after_calls FwdIt.__next__ k fwd) = (Raise StopIteration, fwd)
    /\ RevIt.__next__ (after_calls RevIt.__next__ k bwd) = (Raise StopIteration, bwd).
Proof.
  intros fwd fwd' bwd bwd' k Hf Hb.
  assert (Hf' : FwdIt.__next__ fwd = (Raise StopIteration, fwd)).
  { revert Hf. unfold FwdIt.__next__.
    destruct (FwdIt._has_next fwd) as [[|] it1] eqn:Hn.
    - destruct (FwdIt.successor (FwdIt.root it1) (FwdIt.next it1)) as [y | e] eqn:Hs.
      + destruct (FwdIt.next it1); discriminate.
      + intros H. injection H as -> _. exfalso.
        unfold FwdIt.successor in Hs. destruct (FwdIt.next it1) as [p |].
        * destruct (truthy (child GoRight (node_at (FwdIt.root it1) p)));
            [ discriminate | ].
          apply fwd_climb_raises in Hs. discriminate.
        * discriminate.
    - intros _. f_equal. unfold FwdIt._has_next in Hn.
      destruct (negb (FwdIt.initialized fwd));
        [ destruct (negb (truthy (FwdIt.root fwd))) | ]; congruence. }
  assert (Hb' : RevIt.__next__ bwd = (Raise StopIteration, bwd)).
  { revert Hb. unfold RevIt.__next__.
    destruct (RevIt.has_next bwd) as [[|] it1] eqn:Hn.
    - destruct (RevIt.predecessor (RevIt.root it1) (RevIt.next it1)) as [y | e] eqn:Hs.
      + destruct (RevIt.next it1); discriminate.
      + intros H. injection H as -> _. exfalso.
        unfold RevIt.predecessor in Hs. destruct (RevIt.next it1) as [p |].
        * destruct (truthy (child GoLeft (node_at (RevIt.root it1) p)));
            [ discriminate | ].
          apply rev_climb_raises in Hs. discriminate.
        * discriminate.
    - intros _. f_equal. unfold RevIt.has_next in Hn.
      destruct (negb (RevIt.initialized bwd));
        [ destruct (negb (truthy (RevIt.root bwd))) | ]; congruence. }
  split.
  - induction k as [| k IH]; [ exact Hf' | ].
    cbn [after_calls]. rewrite Hf'. exact IH.
  - induction k as [| k IH]; [ exact Hb' | ].
    cbn [after_calls]. rewrite Hb'. exact IH.
Qed.

Lemma exhausted_node_iterators_stay_exhausted_witness :
  let root := _head (tree_of [SimpleInterval 0 40; SimpleInterval 5 10;
                              SimpleInterval 30 50]) in
  let fwd := after_calls FwdIt.__next__ 3 (node_iter root) in
  let bwd := after_calls RevIt.__next__ 3 (RevIt.init root) in
  FwdIt.__next__ (after_calls FwdIt.__next__ 2 fwd) = (Raise StopIteration, fwd)
  /\ RevIt.__next__ (after_calls RevIt.__next__ 2 bwd) = (Raise StopIteration, bwd).
Proof.
  cbv zeta.
  apply (exhausted_node_iterators_stay_exhausted
           (after_calls FwdIt.__next__ 3
              (node_iter (_head (tree_of [SimpleInterval 0 40; SimpleInterval 5 10;
                                          SimpleInterval 30 50]))))
           (after_calls FwdIt.__next__ 3
              (node_iter (_head (tree_of [SimpleInterval 0 40; SimpleInterval 5 10;
                                          SimpleInterval 30 50]))))
           (after_calls RevIt.__next__ 3
              (RevIt.init (_head (tree_of [SimpleInterval 0 40; SimpleInterval 5 10;
                                           SimpleInterval 30 50]))))
           (after_calls RevIt.__next__ 3
              (RevIt.init (_head (tree_of [SimpleInterval 0 40; SimpleInterval 5 10;
                                           SimpleInterval 30 50]))))
           2);
    vm_compute; reflexivity.
Defined.

(** ** search against get_overlaps *)





(** ** Iteration that the empty own map of the root cuts short *)






